(** * mail_from_formidable_forms_extractor: a shallow embedding

    The program (src/mail_from_formidable_forms_extractor.py) opens one IMAP
    session, walks over the messages of a mailbox, drops those whose four
    address headers are not the expected ones, searches the text of the
    others with one fixed regular expression and writes the captured fields
    to a CSV file.

    Python text is modelled as a list of Unicode code points, Python values
    that may be [None] as [pyval], dictionaries as [gmap], exceptions as the
    left summand of a result, and the effects (terminal output, the file
    system, the commands sent to the mail server) as a state threaded through
    a small state-and-exception monad. *)

From Stdlib Require Import NArith Lia Ascii String List Sorted.
From Stdlib.Strings Require Import Byte.
From stdpp Require Import base option list gmap strings.

Local Open Scope N_scope.

(** ** Text *)

(** A character is a Unicode code point, a [str] a sequence of them. *)
Abbreviation char := N.
Abbreviation str := (list char).

(** Code points of an ASCII literal. *)
Fixpoint cps (s : string) : str :=
  match s with
  | EmptyString => []
  | String a s' => N_of_ascii a :: cps s'
  end.

Definition LF : char := 10.
Definition CR : char := 13.
Definition COMMA : char := 44.
Definition DQUOTE : char := 34.

(** A Python value that is either [None] or a string. *)
Inductive pyval :=
  | PyNone
  | PyStr (s : str).

Global Instance pyval_eq_dec : EqDecision pyval.
Proof. solve_decision. Defined.

(** ** Regular expressions (the part of [re] the program uses) *)

(** First code point of each block of ten Unicode decimal digits (general
    category Nd, Unicode 14.0), the characters that [\d] matches in a
    pattern over text.  The block of mathematical digits starting at
    U+1D7CE holds fifty code points and is listed apart. *)
Definition DECIMAL_BLOCKS : list N :=
  [48; 1632; 1776; 1984; 2406; 2534; 2662; 2790; 2918; 3046; 3174; 3302;
   3430; 3558; 3664; 3792; 3872; 4160; 4240; 6112; 6160; 6470; 6608; 6784;
   6800; 6992; 7088; 7232; 7248; 42528; 43216; 43264; 43472; 43504; 43600;
   44016; 65296; 66720; 68912; 69734; 69872; 69942; 70096; 70384; 70736;
   70864; 71248; 71360; 71472; 71904; 72016; 72784; 73040; 73120; 92768;
   92864; 93008; 123200; 123632; 125264; 130032].

Definition in_range (lo len c : N) : bool := (lo <=? c) && (c <? lo + len).

Definition is_decimal (c : char) : bool :=
  existsb (fun lo => in_range lo 10 c) DECIMAL_BLOCKS || in_range 120782 50 c.

(** A set of characters: one literal character, [\d], or [[^c]]. *)
Inductive cset :=
  | COne (c : char)
  | CDigit
  | CNot (c : char).

Definition cset_mem (cs : cset) (c : char) : bool :=
  match cs with
  | COne d => bool_decide (c = d)
  | CDigit => is_decimal c
  | CNot d => negb (bool_decide (c = d))
  end.

(** Abstract syntax of a pattern.  Repetition is only needed over a set of
    characters (a run of digits, a run of non-quote characters);
    [RRep cs lo] is the greedy repetition of [cs], at least [lo] times. *)
Inductive regex :=
  | RLit (l : str)
  | RSet (cs : cset)
  | RSeq (r1 r2 : regex)
  | ROpt (r : regex)
  | RRep (cs : cset) (lo : nat)
  | RGroup (r : regex)
  | RNamed (name : string) (r : regex).

(** Captured text of the named groups that took part in the match. *)
Abbreviation captures := (gmap string str).

Fixpoint strip_prefix (l s : str) : option str :=
  match l, s with
  | [], _ => Some s
  | a :: l', b :: s' => if bool_decide (a = b) then strip_prefix l' s' else None
  | _ :: _, [] => None
  end.

(** The text between two positions, given as the suffixes that start there. *)
Definition consumed (s s' : str) : str := take (length s - length s') s.

Section Matcher.
Context {R : Type}.

(** Greedy repetition with backtracking: take as many characters of the
    set as there are, and give back one at a time while the rest fails. *)
Fixpoint rep (cs : cset) (lo n : nat) (s : str) (k : str → option R) : option R :=
  let stop := if (lo <=? n)%nat then k s else None in
  match s with
  | c :: s' =>
      if cset_mem cs c then
        match rep cs lo (S n) s' k with
        | Some x => Some x
        | None => stop
        end
      else stop
  | [] => stop
  end.

(** Backtracking matcher in continuation-passing style: [k] is the rest of
    the pattern, called on the remaining text and the groups so far. *)
Fixpoint rmatch (r : regex) (s : str) (g : captures)
    (k : str → captures → option R) : option R :=
  match r with
  | RLit l =>
      match strip_prefix l s with
      | Some s' => k s' g
      | None => None
      end
  | RSet cs =>
      match s with
      | c :: s' => if cset_mem cs c then k s' g else None
      | [] => None
      end
  | RSeq r1 r2 => rmatch r1 s g (fun s' g' => rmatch r2 s' g' k)
  | ROpt r1 =>
      match rmatch r1 s g k with
      | Some x => Some x
      | None => k s g
      end
  | RRep cs lo => rep cs lo 0 s (fun s' => k s' g)
  | RGroup r1 => rmatch r1 s g k
  | RNamed name r1 =>
      rmatch r1 s g (fun s' g' => k s' (<[name := consumed s s']> g'))
  end.
End Matcher.

(** A match object: where the match starts and ends, and its named groups. *)
Record re_match := {
  m_start : nat;
  m_end : nat;
  m_groups : captures
}.

(** [pattern.match] at one position of [text] ([s] is the text from [pos]). *)
Definition match_at (r : regex) (pos : nat) (s : str) : option re_match :=
  rmatch r s ∅ (fun s' g =>
    Some {| m_start := pos; m_end := (pos + (length s - length s'))%nat; m_groups := g |}).

(** [pattern.search]: the leftmost position at which the pattern matches. *)
Fixpoint search_from (r : regex) (pos : nat) (s : str) : option re_match :=
  match match_at r pos s with
  | Some m => Some m
  | None =>
      match s with
      | [] => None
      | _ :: s' => search_from r (S pos) s'
      end
  end.

Definition re_search (r : regex) (text : str) : option re_match :=
  search_from r 0%nat text.

(** Names of the named groups of a pattern, in pattern order. *)
Fixpoint group_names (r : regex) : list string :=
  match r with
  | RLit _ | RSet _ | RRep _ _ => []
  | RSeq r1 r2 => group_names r1 ++ group_names r2
  | ROpt r1 | RGroup r1 => group_names r1
  | RNamed name r1 => name :: group_names r1
  end.

Definition group_value (m : re_match) (name : string) : pyval :=
  match m_groups m !! name with
  | Some t => PyStr t
  | None => PyNone
  end.

(** [match.groupdict()]: every named group of the pattern, [None] for those
    that did not take part in the match. *)
Definition groupdict (r : regex) (m : re_match) : gmap string pyval :=
  list_to_map (map (fun name => (name, group_value m name)) (group_names r)).

(** ** The program's constants *)

Definition quoted (name : string) : str := [DQUOTE] ++ cps name ++ [DQUOTE].

Definition rconcat (rs : list regex) : regex := foldr RSeq (RLit []) rs.

Definition lit (s : string) : regex := RLit (cps s).
Definition digit : regex := RSet CDigit.

(** The quoted field [name] of the data line: a quote, the named group
    around a run of [cs], a quote. *)
Definition field (name : string) (cs : cset) (lo : nat) : regex :=
  rconcat [RLit [DQUOTE]; RNamed name (RRep cs lo); RLit [DQUOTE]].

(** [EXTRACTION_REGEXP], piece by piece as the source concatenates it. *)
Definition EXTRACTION_REGEXP : regex :=
  rconcat [
    lit "X-Mailer: WPMailSMTP/Mailer/smtp "; digit; lit "."; digit; lit "."; digit;
    RLit [LF]; lit "MIME-Version: "; digit; lit "."; digit;
    RLit [LF]; lit "Content-Type: text/plain; charset=UTF-8";
    ROpt (RGroup (rconcat [RLit [LF]; lit "Content-Transfer-Encoding: 8bit"]));
    RLit [LF];
    RLit [LF];
    RLit (quoted "eintrags_id"); lit ","; RLit (quoted "key"); lit ",";
    RLit (quoted "anzahl_personen"); lit ","; RLit (quoted "zahlungsstatus"); lit ",";
    RLit (quoted "name"); lit ","; RLit (quoted "vorname"); lit ",";
    RLit (quoted "mail"); lit ","; RLit (quoted "telefon"); lit ",";
    RLit (quoted "sonstiges"); lit ",";
    RLit (quoted "club"); lit ","; RLit (quoted "teilnehmer_2"); lit ",";
    RLit (quoted "teilnehmer_3"); lit ","; RLit (quoted "teilnehmer_4"); lit ",";
    RLit (quoted "teilnehmer_5"); lit ","; RLit (quoted "teilnehmer_6"); lit ",";
    RLit (quoted "teilnehmer_7"); lit ",";
    RLit [LF]; field "eintrags_id" CDigit 1; lit ","; field "key" (CNot DQUOTE) 1; lit ",";
    field "anzahl_personen" CDigit 1; lit ","; field "zahlungsstatus" (CNot DQUOTE) 0; lit ",";
    field "name" (CNot DQUOTE) 1; lit ","; field "vorname" (CNot DQUOTE) 1; lit ",";
    field "mail" (CNot DQUOTE) 1; lit ",";
    field "telefon" (CNot DQUOTE) 0; lit ","; field "sonstiges" (CNot DQUOTE) 0; lit ",";
    field "club" (CNot DQUOTE) 0; lit ",";
    field "teilnehmer_2" (CNot DQUOTE) 0; lit ","; field "teilnehmer_3" (CNot DQUOTE) 0; lit ",";
    field "teilnehmer_4" (CNot DQUOTE) 0; lit ","; field "teilnehmer_5" (CNot DQUOTE) 0; lit ",";
    field "teilnehmer_6" (CNot DQUOTE) 0; lit ","; field "teilnehmer_7" (CNot DQUOTE) 0
  ].

Definition MAILBOX_FOR_DOWNLOAD : str := cps "Registrations".

Global Arguments re_search : simpl never.
Global Arguments groupdict : simpl never.

(** ** Exceptions and effects *)

(** The exceptions the run can end with. *)
Inductive exn :=
  | SystemExit             (* argparse: usage error, --help, --version *)
  | OSError                (* connection refused, timeout, TLS failure *)
  | IMAP4_error            (* the server rejected a command *)
  | TypeError              (* a response without the expected shape *)
  | UnicodeDecodeError     (* bytes that are not UTF-8 *)
  | MessageDefect          (* a defect found under policy.strict *)
  | AttributeError         (* attribute access on None *)
  | KeyError               (* a dictionary without the key *)
  | CsvError.              (* csv.Error, raised by the reader *)

Global Instance exn_eq_dec : EqDecision exn.
Proof. solve_decision. Defined.

Abbreviation result A := (exn + A)%type.

(** Commands sent to the mail server, in the order they were sent. *)
Inductive imap_cmd :=
  | Connect (host : str) (port : N)
  | Login (user password : str)
  | Select (mailbox : str) (readonly : bool)
  | Search
  | Fetch (idx : N)
  | Close
  | Logout.

(** What a run can change: the lines printed on the terminal (one entry for
    each call of print), the text files of the working directory, and the
    commands the mail server has received. *)
Record world := {
  stdout : list str;
  files : gmap string str;
  imap_trace : list imap_cmd
}.

(** State and exceptions: a computation takes the world and returns the
    world it leaves, with a value or the exception raised. *)
Definition M (A : Type) : Type := world → world * result A.

Definition ret {A} (a : A) : M A := fun w => (w, inr a).
Definition raise {A} (e : exn) : M A := fun w => (w, inl e).

Definition bind {A B} (c : M A) (k : A → M B) : M B :=
  fun w =>
    match c w with
    | (w', inr a) => k a w'
    | (w', inl e) => (w', inl e)
    end.

Notation "x <- c ; k" := (bind c (fun x => k))
  (at level 20, c at level 100, k at level 200, only parsing).

(** A pure step that may raise. *)
Definition lift {A} (r : result A) : M A := fun w => (w, r).

(** try: body finally: cleanup.  The cleanup runs on both exits; the
    body's exception, if any, is raised again after it. *)
Definition finally {A} (body : M A) (cleanup : M unit) : M A :=
  fun w =>
    match body w with
    | (w', inr a) =>
        match cleanup w' with
        | (w'', inr _) => (w'', inr a)
        | (w'', inl e) => (w'', inl e)
        end
    | (w', inl e) => (fst (cleanup w'), inl e)
    end.

Definition put_line (line : str) (w : world) : world :=
  {| stdout := stdout w ++ [line]; files := files w; imap_trace := imap_trace w |}.

Definition put_cmd (c : imap_cmd) (w : world) : world :=
  {| stdout := stdout w; files := files w; imap_trace := imap_trace w ++ [c] |}.

Definition put_files (fs : gmap string str) (w : world) : world :=
  {| stdout := stdout w; files := fs; imap_trace := imap_trace w |}.

Definition print (line : str) : M unit := fun w => (put_line line w, inr tt).

Definition send (c : imap_cmd) : M unit := fun w => (put_cmd c w, inr tt).

(** open(name, 'wt', newline=''): the file is created, or emptied. *)
Definition open_wt (name : string) : M unit :=
  fun w => (put_files (<[name := []]> (files w)) w, inr tt).

(** file.write(text) on the file opened under [name]; with newline='' no
    line ending is translated. *)
Definition file_write (name : string) (text : str) : M unit :=
  fun w => (put_files (alter (fun old => old ++ text) name (files w)) w, inr tt).

(** ** RegistrationData *)

Record RegistrationData := {
  eintrags_id : pyval;
  key : pyval;
  anzahl_personen : pyval;
  zahlungsstatus : pyval;
  name : pyval;
  vorname : pyval;
  mail : pyval;
  telefon : pyval;
  sonstiges : pyval;
  club : pyval;
  teilnehmer_2 : pyval;
  teilnehmer_3 : pyval;
  teilnehmer_4 : pyval;
  teilnehmer_5 : pyval;
  teilnehmer_6 : pyval;
  teilnehmer_7 : pyval
}.

(** data[k], which raises KeyError when the key is missing. *)
Definition getitem (data : gmap string pyval) (k : string) : result pyval :=
  match data !! k with
  | Some v => inr v
  | None => inl KeyError
  end.

Definition rbind {A B} (r : result A) (k : A → result B) : result B :=
  match r with
  | inr a => k a
  | inl e => inl e
  end.

Notation "x <~ r ; k" := (rbind r (fun x => k))
  (at level 20, r at level 100, k at level 200, only parsing).

(** RegistrationData.__init__ *)
Definition RegistrationData_init (data : gmap string pyval) : result RegistrationData :=
  v1 <~ getitem data "eintrags_id";
  v2 <~ getitem data "key";
  v3 <~ getitem data "anzahl_personen";
  v4 <~ getitem data "zahlungsstatus";
  v5 <~ getitem data "name";
  v6 <~ getitem data "vorname";
  v7 <~ getitem data "mail";
  v8 <~ getitem data "telefon";
  v9 <~ getitem data "sonstiges";
  v10 <~ getitem data "club";
  v11 <~ getitem data "teilnehmer_2";
  v12 <~ getitem data "teilnehmer_3";
  v13 <~ getitem data "teilnehmer_4";
  v14 <~ getitem data "teilnehmer_5";
  v15 <~ getitem data "teilnehmer_6";
  v16 <~ getitem data "teilnehmer_7";
  inr {| eintrags_id := v1; key := v2; anzahl_personen := v3;
         zahlungsstatus := v4; name := v5; vorname := v6; mail := v7;
         telefon := v8; sonstiges := v9; club := v10; teilnehmer_2 := v11;
         teilnehmer_3 := v12; teilnehmer_4 := v13; teilnehmer_5 := v14;
         teilnehmer_6 := v15; teilnehmer_7 := v16 |}.

(** The row RegistrationData.write_header_to_csv writes. *)
Definition HEADER_ROW : list string :=
  ["eintrags_id"; "key"; "anzahl_personen"; "zahlungsstatus";
   "name"; "vorname"; "mail"; "telefon"; "sonstiges"; "club";
   "teilnehmer_2"; "teilnehmer_3"; "teilnehmer_4";
   "teilnehmer_5"; "teilnehmer_6"; "teilnehmer_7"].

(** The row RegistrationData.write_to_csv writes. *)
Definition registration_row (r : RegistrationData) : list pyval :=
  [eintrags_id r; key r; anzahl_personen r;
   zahlungsstatus r; name r; vorname r; mail r;
   telefon r; sonstiges r; club r; teilnehmer_2 r;
   teilnehmer_3 r; teilnehmer_4 r; teilnehmer_5 r;
   teilnehmer_6 r; teilnehmer_7 r].

(** ** Messages *)

(** A parsed message, as far as the program looks at it: its header fields
    in order (name and value) and the text that str(msg) gives. *)
Record message := {
  msg_headers : list (string * str);
  msg_text : str
}.

Definition lower_ascii (a : ascii) : ascii :=
  let n := N_of_ascii a in
  if (65 <=? n) && (n <=? 90) then ascii_of_N (n + 32) else a.

Fixpoint lower (s : string) : string :=
  match s with
  | EmptyString => EmptyString
  | String a s' => String (lower_ascii a) (lower s')
  end.

(** msg[name]: the value of the first field of that name, compared without
    regard to case, or None. *)
Fixpoint header_lookup (hs : list (string * str)) (name : string) : pyval :=
  match hs with
  | [] => PyNone
  | (k, v) :: hs' =>
      if bool_decide (lower k = lower name) then PyStr v else header_lookup hs' name
  end.

Definition msg_get (msg : message) (name : string) : pyval :=
  header_lookup (msg_headers msg) name.

(** v != 'literal' *)
Definition py_ne (v : pyval) (s : str) : bool := negb (bool_decide (v = PyStr s)).

Definition ENVELOPE_FROM : str := cps "<some_address@example.org>".
Definition ENVELOPE_TO : str := cps "<another_address@example.org>".
Definition FROM : str := cps "<some_address@example.org>".
Definition TO : str := cps "another_address@example.org, further_address@example.org".

Definition check_if_message_to_skip (msg : message) : bool :=
  py_ne (msg_get msg "X-Envelope-From") ENVELOPE_FROM
  || py_ne (msg_get msg "X-Envelope-To") ENVELOPE_TO
  || py_ne (msg_get msg "From") FROM
  || py_ne (msg_get msg "To") TO.

(** What str.format puts in place of a replacement field. *)
Definition py_format (v : pyval) : str :=
  match v with
  | PyNone => cps "None"
  | PyStr s => s
  end.

(** The line printed for a skipped message. *)
Definition skip_notice (msg : message) : str :=
  cps "Skipping e-mail from " ++ [DQUOTE] ++ py_format (msg_get msg "X-Envelope-From")
  ++ [DQUOTE] ++ cps " to " ++ [DQUOTE] ++ py_format (msg_get msg "X-Envelope-To")
  ++ [DQUOTE].

(** ** bytes.decode('utf-8') *)

Definition continuation (b : N) : bool := (128 <=? b) && (b <=? 191).
Definition low6 (b : N) : N := N.land b 63.

(** Strict UTF-8: shortest form only, no surrogates, nothing above
    U+10FFFF. *)
Fixpoint decode_utf8 (bs : list byte) : result str :=
  match bs with
  | [] => inr []
  | x0 :: t0 =>
      let b0 := Byte.to_N x0 in
      if b0 <? 128 then
        rest <~ decode_utf8 t0; inr (b0 :: rest)
      else if (194 <=? b0) && (b0 <=? 223) then
        match t0 with
        | x1 :: t1 =>
            let b1 := Byte.to_N x1 in
            if continuation b1 then
              rest <~ decode_utf8 t1;
              inr (N.lor (N.shiftl (N.land b0 31) 6) (low6 b1) :: rest)
            else inl UnicodeDecodeError
        | _ => inl UnicodeDecodeError
        end
      else if (224 <=? b0) && (b0 <=? 239) then
        match t0 with
        | x1 :: x2 :: t2 =>
            let b1 := Byte.to_N x1 in
            let b2 := Byte.to_N x2 in
            let lo := if b0 =? 224 then 160 else 128 in
            let hi := if b0 =? 237 then 159 else 191 in
            if (lo <=? b1) && (b1 <=? hi) && continuation b2 then
              rest <~ decode_utf8 t2;
              inr (N.lor (N.shiftl (N.land b0 15) 12)
                     (N.lor (N.shiftl (low6 b1) 6) (low6 b2)) :: rest)
            else inl UnicodeDecodeError
        | _ => inl UnicodeDecodeError
        end
      else if (240 <=? b0) && (b0 <=? 244) then
        match t0 with
        | x1 :: x2 :: x3 :: t3 =>
            let b1 := Byte.to_N x1 in
            let b2 := Byte.to_N x2 in
            let b3 := Byte.to_N x3 in
            let lo := if b0 =? 240 then 144 else 128 in
            let hi := if b0 =? 244 then 143 else 191 in
            if (lo <=? b1) && (b1 <=? hi) && continuation b2 && continuation b3 then
              rest <~ decode_utf8 t3;
              inr (N.lor (N.shiftl (N.land b0 7) 18)
                     (N.lor (N.shiftl (low6 b1) 12)
                        (N.lor (N.shiftl (low6 b2) 6) (low6 b3))) :: rest)
            else inl UnicodeDecodeError
        | _ => inl UnicodeDecodeError
        end
      else inl UnicodeDecodeError
  end.

(** ** The surroundings of a run *)

Record cmdline_args := {
  imap_user : str;
  server_url : str;
  port : N
}.

(** What the program's surroundings answer: the command line as argparse
    reads it, the password typed at the prompt, the mail server's answer to
    each command (None where a command succeeds without a value), and the
    email package's parser under policy.strict. *)
Record environment := {
  parse_args : result cmdline_args;
  getpass : str → str;
  imap_connect : str → N → option exn;
  imap_login : str → str → option exn;
  imap_select : str → bool → option exn;
  imap_search_all : result (list N);
  imap_fetch : N → result (list byte);
  imap_close : option exn;
  message_from_string : str → result message
}.

Definition check (o : option exn) : M unit :=
  match o with
  | None => ret tt
  | Some e => raise e
  end.

(** for x in l: s = body(s, x) *)
Fixpoint for_each {A S} (l : list A) (body : S → A → M S) (s : S) : M S :=
  match l with
  | [] => ret s
  | a :: l' => s' <- body s a; for_each l' body s'
  end.

(** ** retrieve_registrations_from_server *)

(** One turn of the loop over the message numbers. *)
Definition process_message (env : environment)
    (registrations : list RegistrationData) (idx : N) : M (list RegistrationData) :=
  _ <- send (Fetch idx);
  raw_email <- lift (imap_fetch env idx);
  decoded <- lift (decode_utf8 raw_email);
  msg <- lift (message_from_string env decoded);
  if check_if_message_to_skip msg then
    _ <- print (skip_notice msg);
    ret registrations
  else
    let res := re_search EXTRACTION_REGEXP (msg_text msg) in
    data <- lift (match res with
                  | Some m => inr (groupdict EXTRACTION_REGEXP m)
                  | None => inl AttributeError
                  end);
    entry <- lift (RegistrationData_init data);
    ret (registrations ++ [entry]).

Global Arguments process_message : simpl never.

Definition password_prompt (user : str) : str :=
  cps "Please enter the password of " ++ [DQUOTE] ++ user ++ [DQUOTE] ++ cps ": ".

Definition retrieve_registrations_from_server (env : environment)
    (args : cmdline_args) : M (list RegistrationData) :=
  let registrations := [] in
  _ <- send (Connect (server_url args) (port args));
  _ <- check (imap_connect env (server_url args) (port args));
  finally
    (let password := getpass env (password_prompt (imap_user args)) in
     _ <- send (Login (imap_user args) password);
     _ <- check (imap_login env (imap_user args) password);
     _ <- send (Select MAILBOX_FOR_DOWNLOAD true);
     _ <- check (imap_select env MAILBOX_FOR_DOWNLOAD true);
     _ <- send Search;
     ids <- lift (imap_search_all env);
     registrations <- for_each ids (process_message env) registrations;
     _ <- send Close;
     _ <- check (imap_close env);
     ret registrations)
    (send Logout).

(** ** csv.writer with the default dialect *)

(** The text written for a field: the empty string for None. *)
Definition csv_text (v : pyval) : str :=
  match v with
  | PyNone => []
  | PyStr s => s
  end.

(** Characters that make the writer quote a field: the delimiter, the quote
    character and the characters of the line terminator. *)
Definition csv_special (c : char) : bool :=
  bool_decide (c = COMMA) || bool_decide (c = DQUOTE)
  || bool_decide (c = CR) || bool_decide (c = LF).

Definition csv_escape (s : str) : str :=
  flat_map (fun c => if bool_decide (c = DQUOTE) then [DQUOTE; DQUOTE] else [c]) s.

Definition csv_quote (s : str) : str :=
  if existsb csv_special s then [DQUOTE] ++ csv_escape s ++ [DQUOTE] else s.

Fixpoint join (sep : str) (l : list str) : str :=
  match l with
  | [] => []
  | [x] => x
  | x :: l' => x ++ sep ++ join sep l'
  end.

(** The text of one row.  A row of one empty field is written as a pair of
    quotes, so that it does not read back as an empty line. *)
Definition csv_record (row : list pyval) : str :=
  let rec := join [COMMA] (map (fun v => csv_quote (csv_text v)) row) in
  (if bool_decide (row ≠ []) && bool_decide (rec = []) then [DQUOTE; DQUOTE] else rec)
  ++ [CR; LF].

Definition writerow (file : string) (row : list pyval) : M unit :=
  file_write file (csv_record row).

(** RegistrationData.write_header_to_csv *)
Definition write_header_to_csv (file : string) : M unit :=
  writerow file (map (fun f => PyStr (cps f)) HEADER_ROW).

(** RegistrationData.write_to_csv *)
Definition write_to_csv (entry : RegistrationData) (file : string) : M unit :=
  writerow file (registration_row entry).

(** ** write_registrations_to_csv and main *)

Definition write_registrations_to_csv (registrations : list RegistrationData)
    (export_file_name : string) : M unit :=
  _ <- open_wt export_file_name;
  _ <- write_header_to_csv export_file_name;
  for_each registrations (fun _ entry => write_to_csv entry export_file_name) tt.

Definition EXPORT_FILE : string := "exported_registrations.csv".

Definition main (env : environment) : M unit :=
  args <- lift (parse_args env);
  registrations <- retrieve_registrations_from_server env args;
  write_registrations_to_csv registrations EXPORT_FILE.

(** ** Reading the file back: csv.reader with the default dialect *)

(** The lines of a text file opened with newline='': a line ends after a
    line feed, after a carriage return and line feed, or after a carriage
    return alone, and keeps its ending. *)
Fixpoint readlines_from (cur : str) (s : str) : list str :=
  match s with
  | [] => if bool_decide (cur = []) then [] else [cur]
  | c :: s' =>
      if bool_decide (c = LF) then (cur ++ [LF]) :: readlines_from [] s'
      else if bool_decide (c = CR) then
        match s' with
        | d :: s'' =>
            if bool_decide (d = LF) then (cur ++ [CR; LF]) :: readlines_from [] s''
            else (cur ++ [CR]) :: readlines_from [] s'
        | [] => [cur ++ [CR]]
        end
      else readlines_from (cur ++ [c]) s'
  end.

Definition readlines (s : str) : list str := readlines_from [] s.

Inductive reader_state :=
  | START_RECORD
  | START_FIELD
  | IN_FIELD
  | IN_QUOTED_FIELD
  | QUOTE_IN_QUOTED_FIELD
  | EAT_CRNL.

Global Instance reader_state_eq_dec : EqDecision reader_state.
Proof. solve_decision. Defined.

(** The reader: its state, the fields of the record being read, and the
    characters of the field being read. *)
Record reader := {
  state : reader_state;
  fields : list str;
  cur_field : str
}.

(** What the reader is fed: a character of a line, or the end of the line. *)
Inductive input :=
  | Ch (c : char)
  | EOL.

Definition parse_reset : reader :=
  {| state := START_RECORD; fields := []; cur_field := [] |}.

Definition set_state (st : reader_state) (r : reader) : reader :=
  {| state := st; fields := fields r; cur_field := cur_field r |}.

Definition parse_save_field (r : reader) : reader :=
  {| state := state r; fields := fields r ++ [cur_field r]; cur_field := [] |}.

Definition parse_add_char (c : char) (r : reader) : reader :=
  {| state := state r; fields := fields r; cur_field := cur_field r ++ [c] |}.

Definition newline (c : char) : bool := bool_decide (c = LF) || bool_decide (c = CR).

(** The case START_FIELD, which START_RECORD falls through to. *)
Definition start_field (r : reader) (i : input) : reader :=
  match i with
  | EOL => set_state START_RECORD (parse_save_field r)
  | Ch c =>
      if newline c then set_state EAT_CRNL (parse_save_field r)
      else if bool_decide (c = DQUOTE) then set_state IN_QUOTED_FIELD r
      else if bool_decide (c = COMMA) then set_state START_FIELD (parse_save_field r)
      else set_state IN_FIELD (parse_add_char c r)
  end.

(** The reader's transition function for the default dialect: comma, double
    quote doubled inside quoted fields, no escape character, not strict. *)
Definition parse_process_char (r : reader) (i : input) : result reader :=
  match state r with
  | START_RECORD =>
      match i with
      | EOL => inr r
      | Ch c => if newline c then inr (set_state EAT_CRNL r) else inr (start_field r i)
      end
  | START_FIELD => inr (start_field r i)
  | IN_FIELD =>
      match i with
      | EOL => inr (set_state START_RECORD (parse_save_field r))
      | Ch c =>
          if newline c then inr (set_state EAT_CRNL (parse_save_field r))
          else if bool_decide (c = COMMA) then inr (set_state START_FIELD (parse_save_field r))
          else inr (parse_add_char c r)
      end
  | IN_QUOTED_FIELD =>
      match i with
      | EOL => inr r
      | Ch c =>
          if bool_decide (c = DQUOTE) then inr (set_state QUOTE_IN_QUOTED_FIELD r)
          else inr (parse_add_char c r)
      end
  | QUOTE_IN_QUOTED_FIELD =>
      match i with
      | EOL => inr (set_state START_RECORD (parse_save_field r))
      | Ch c =>
          if bool_decide (c = DQUOTE) then inr (set_state IN_QUOTED_FIELD (parse_add_char c r))
          else if bool_decide (c = COMMA) then inr (set_state START_FIELD (parse_save_field r))
          else if newline c then inr (set_state EAT_CRNL (parse_save_field r))
          else inr (set_state IN_FIELD (parse_add_char c r))
      end
  | EAT_CRNL =>
      match i with
      | EOL => inr (set_state START_RECORD r)
      | Ch c => if newline c then inr r else inl CsvError
      end
  end.

(** One line: its characters, then the end of line. *)
Fixpoint process_chars (r : reader) (line : str) : result reader :=
  match line with
  | [] => inr r
  | c :: line' => r' <~ parse_process_char r (Ch c); process_chars r' line'
  end.

Definition process_line (r : reader) (line : str) : result reader :=
  r' <~ process_chars r line; parse_process_char r' EOL.

(** The end of the input: a row still open, inside a quoted field or with
    characters of a field read, is closed. *)
Definition end_input (r : reader) : result (list (list str)) :=
  if bool_decide (cur_field r ≠ []) || bool_decide (state r = IN_QUOTED_FIELD)
  then inr [fields (parse_save_field r)]
  else inr [].

(** list(csv.reader(lines)): lines are consumed until the reader is back at
    the start of a record, which ends a row. *)
Fixpoint read_all (r : reader) (lines : list str) : result (list (list str)) :=
  match lines with
  | [] => end_input r
  | line :: rest =>
      r' <~ process_line r line;
      if bool_decide (state r' = START_RECORD) then
        rows <~ read_all parse_reset rest; inr (fields r' :: rows)
      else read_all r' rest
  end.

Definition csv_read (text : str) : result (list (list str)) :=
  read_all parse_reset (readlines text).

(** ** The reader over the text as a whole *)

(** The end of a line: the reader is told, a finished row is kept, and [k]
    goes on with the reader for what follows. *)
Definition after_line (r : reader)
    (k : reader → result (list (list str))) : result (list (list str)) :=
  r' <~ parse_process_char r EOL;
  if bool_decide (state r' = START_RECORD) then
    rows <~ k parse_reset; inr (fields r' :: rows)
  else k r'.

(** [csv_read] without the detour over the list of lines: the characters
    are fed one by one and the line ends are found on the way ([mid] tells
    whether the current line has characters already).  [csv_read_run] shows
    that it computes what [csv_read] does. *)
Fixpoint run (mid : bool) (r : reader) (s : str) : result (list (list str)) :=
  match s with
  | [] => if mid then after_line r end_input else end_input r
  | c :: s' =>
      r1 <~ parse_process_char r (Ch c);
      if bool_decide (c = LF) then after_line r1 (fun r' => run false r' s')
      else if bool_decide (c = CR) then
        match s' with
        | d :: s'' =>
            if bool_decide (d = LF) then
              r2 <~ parse_process_char r1 (Ch d);
              after_line r2 (fun r' => run false r' s'')
            else after_line r1 (fun r' => run false r' s')
        | [] => after_line r1 (fun r' => run false r' s')
        end
      else run true r1 s'
  end.

Abbreviation Rd st fs acc :=
  {| state := st; fields := fs; cur_field := acc |}.

(** What ends a field: a comma, or the carriage return and line feed that
    end the row. *)
Inductive field_done : reader_state → Prop :=
  | done_plain : field_done IN_FIELD
  | done_quoted : field_done QUOTE_IN_QUOTED_FIELD
  | done_empty : field_done START_FIELD.

(** The rows of the export file for the records [regs], and its text. *)
Definition export_rows (regs : list RegistrationData) : list (list pyval) :=
  map (fun f => PyStr (cps f)) HEADER_ROW :: map registration_row regs.

Definition export_text (regs : list RegistrationData) : str :=
  concat (map csv_record (export_rows regs)).

(** The number of data rows of the export file as a reader finds them: the
    rows after the header row, none where there is no file to read. *)
Definition data_rows (w : world) : nat :=
  match files w !! EXPORT_FILE with
  | Some text =>
      match csv_read text with
      | inr rows => (length rows - 1)%nat
      | inl _ => 0%nat
      end
  | None => 0%nat
  end.



(** ** What a match means *)

(** [sem r t g g']: the pattern [r] matches exactly the text [t], and
    takes the named groups from [g] to [g']. *)
Inductive sem : regex → str → captures → captures → Prop :=
  | sem_lit l g : sem (RLit l) l g g
  | sem_set cs c g : cset_mem cs c = true → sem (RSet cs) [c] g g
  | sem_seq r1 r2 t1 t2 g g' g'' :
      sem r1 t1 g g' → sem r2 t2 g' g'' → sem (RSeq r1 r2) (t1 ++ t2) g g''
  | sem_opt_some r t g g' : sem r t g g' → sem (ROpt r) t g g'
  | sem_opt_none r g : sem (ROpt r) [] g g
  | sem_rep cs lo t g :
      Forall (fun c => cset_mem cs c = true) t → (lo ≤ length t)%nat →
      sem (RRep cs lo) t g g
  | sem_group r t g g' : sem r t g g' → sem (RGroup r) t g g'
  | sem_named n r t g g' : sem r t g g' → sem (RNamed n r) t g (<[n := t]> g').

(** The named groups outside every optional part whose body is a run of
    one set of characters, with that set and the least length. *)
Fixpoint mandatory (r : regex) : list (string * cset * nat) :=
  match r with
  | RLit _ | RSet _ | RRep _ _ | ROpt _ => []
  | RSeq r1 r2 => mandatory r1 ++ mandatory r2
  | RGroup r1 => mandatory r1
  | RNamed n (RRep cs lo) => [(n, cs, lo)]
  | RNamed n r1 => mandatory r1
  end.

(** The record of a match: every field is looked up under its own name. *)
Definition entry_of_match (m : re_match) : RegistrationData :=
  {| eintrags_id := group_value m "eintrags_id";
     key := group_value m "key";
     anzahl_personen := group_value m "anzahl_personen";
     zahlungsstatus := group_value m "zahlungsstatus";
     name := group_value m "name";
     vorname := group_value m "vorname";
     mail := group_value m "mail";
     telefon := group_value m "telefon";
     sonstiges := group_value m "sonstiges";
     club := group_value m "club";
     teilnehmer_2 := group_value m "teilnehmer_2";
     teilnehmer_3 := group_value m "teilnehmer_3";
     teilnehmer_4 := group_value m "teilnehmer_4";
     teilnehmer_5 := group_value m "teilnehmer_5";
     teilnehmer_6 := group_value m "teilnehmer_6";
     teilnehmer_7 := group_value m "teilnehmer_7" |}.

(** ** One turn of the loop, as a value *)

(** The message behind a message number: fetched, decoded, parsed. *)
Definition fetch_message (env : environment) (idx : N) : result message :=
  raw_email <~ imap_fetch env idx;
  decoded <~ decode_utf8 raw_email;
  message_from_string env decoded.

(** What a turn of the loop comes to: the message is skipped with a notice,
    a record is collected, or the run ends with an exception. *)
Inductive outcome :=
  | Skip (notice : str)
  | Collect (entry : RegistrationData)
  | Abort (e : exn).

Definition message_outcome (msg : message) : outcome :=
  if check_if_message_to_skip msg then Skip (skip_notice msg)
  else
    match re_search EXTRACTION_REGEXP (msg_text msg) with
    | None => Abort AttributeError
    | Some m =>
        match RegistrationData_init (groupdict EXTRACTION_REGEXP m) with
        | inr entry => Collect entry
        | inl e => Abort e
        end
    end.

Definition outcome_of (env : environment) (idx : N) : outcome :=
  match fetch_message env idx with
  | inr msg => message_outcome msg
  | inl e => Abort e
  end.

Definition notice_of (o : outcome) : option str :=
  match o with Skip n => Some n | _ => None end.

Definition entry_of (o : outcome) : option RegistrationData :=
  match o with Collect e => Some e | _ => None end.

Definition aborts (o : outcome) : bool :=
  match o with Abort _ => true | _ => false end.

(** The notices and the records of the message numbers [ids], in order. *)
Definition notices (env : environment) (ids : list N) : list str :=
  omap (fun idx => notice_of (outcome_of env idx)) ids.

Definition entries (env : environment) (ids : list N) : list RegistrationData :=
  omap (fun idx => entry_of (outcome_of env idx)) ids.

(** The world after the turns of the loop for [ids], when none aborts. *)
Definition loop_world (env : environment) (ids : list N) (w : world) : world :=
  {| stdout := stdout w ++ notices env ids;
     files := files w;
     imap_trace := imap_trace w ++ map Fetch ids |}.

(** ** A small mailbox to run the model on *)

(** A message as text: the header fields, an empty line, the body. *)
Definition render (headers : list (string * str)) (body : str) : str :=
  concat (map (fun h => cps (fst h) ++ cps ": " ++ snd h ++ [LF]) headers)
  ++ [LF] ++ body.

Definition allowed_headers : list (string * str) :=
  [("X-Envelope-From", ENVELOPE_FROM); ("X-Envelope-To", ENVELOPE_TO);
   ("From", FROM); ("To", TO)].

Definition mailer_headers : list (string * str) :=
  [("X-Mailer", cps "WPMailSMTP/Mailer/smtp 3.2.1"); ("MIME-Version", cps "1.0");
   ("Content-Type", cps "text/plain; charset=UTF-8");
   ("Content-Transfer-Encoding", cps "8bit")].

(** The body of a notification: the line of column names, which ends with
    a comma, and the data line. *)
Definition notification_body (values : list string) : str :=
  join [COMMA] (map quoted HEADER_ROW) ++ [COMMA; LF]
  ++ join [COMMA] (map quoted values) ++ [LF].

Definition notification (headers : list (string * str)) (values : list string) : message :=
  {| msg_headers := headers ++ mailer_headers;
     msg_text := render (headers ++ mailer_headers) (notification_body values) |}.

Definition example_values : list string :=
  ["1"; "ABC123"; "2"; "paid"; "Doe"; "Jane"; "jane@example.org";
   ""; ""; ""; ""; ""; ""; ""; ""; ""].

(** A registration as the form sends it. *)
Definition example_message : message := notification allowed_headers example_values.

(** A message from somewhere else. *)
Definition stray_message : message :=
  notification
    [("X-Envelope-From", cps "<bounce@example.net>"); ("X-Envelope-To", ENVELOPE_TO);
     ("From", cps "news@example.net"); ("To", cps "list@example.net")]
    example_values.


Definition to_bytes (s : str) : list byte := omap Byte.of_N s.

(** A parser that knows the messages of [box] by their text. *)
Fixpoint parse_known (box : list (N * message)) (text : str) : result message :=
  match box with
  | [] => inl MessageDefect
  | (_, msg) :: box' =>
      if bool_decide (msg_text msg = text) then inr msg else parse_known box' text
  end.

Fixpoint fetch_known (box : list (N * message)) (idx : N) : result (list byte) :=
  match box with
  | [] => inl TypeError
  | (i, msg) :: box' =>
      if bool_decide (i = idx) then inr (to_bytes (msg_text msg))
      else fetch_known box' idx
  end.

Definition example_args : cmdline_args :=
  {| imap_user := cps "registrar"; server_url := cps "imap.example.org"; port := 993 |}.

(** A server that accepts the session and holds the messages of [box]. *)
Definition mailbox_env (box : list (N * message)) : environment :=
  {| parse_args := inr example_args;
     getpass := fun _ => cps "secret";
     imap_connect := fun _ _ => None;
     imap_login := fun _ _ => None;
     imap_select := fun _ _ => None;
     imap_search_all := inr (map fst box);
     imap_fetch := fetch_known box;
     imap_close := None;
     message_from_string := parse_known box |}.

(** The same server with a message that is not UTF-8. *)
Definition garbled_env : environment :=
  {| parse_args := inr example_args;
     getpass := fun _ => cps "secret";
     imap_connect := fun _ _ => None;
     imap_login := fun _ _ => None;
     imap_select := fun _ _ => None;
     imap_search_all := inr [1];
     imap_fetch := fun _ => inr [xff];
     imap_close := None;
     message_from_string := fun _ => inl MessageDefect |}.

(** Two registrations and a message from somewhere else between them. *)
Definition example_box : list (N * message) :=
  [(1, example_message); (2, stray_message); (3, example_message)].

Definition empty_world : world :=
  {| stdout := []; files := ∅; imap_trace := [] |}.


(** Whether the turn for a message number collects a record. *)
Definition collected (env : environment) (idx : N) : bool :=
  match outcome_of env idx with
  | Collect _ => true
  | _ => false
  end.

(** ** Further definitions for the properties of the session *)

(** The first four commands of a session that gets as far as the search. *)
Definition session_opening (env : environment) (args : cmdline_args) : list imap_cmd :=
  [Connect (server_url args) (port args);
   Login (imap_user args) (getpass env (password_prompt (imap_user args)));
   Select MAILBOX_FOR_DOWNLOAD true;
   Search].


(** Whether the turn for a message number skips the message. *)
Definition skipped (env : environment) (idx : N) : bool :=
  match outcome_of env idx with
  | Skip _ => true
  | _ => false
  end.

(** The header row as text. *)
Definition HEADER_LINE : str :=
  cps "eintrags_id,key,anzahl_personen,zahlungsstatus,name,vorname,mail,telefon,sonstiges,club,teilnehmer_2,teilnehmer_3,teilnehmer_4,teilnehmer_5,teilnehmer_6,teilnehmer_7"
  ++ [CR; LF].

(** ** The text the pattern describes *)

Definition MAILER_SIGNATURE : str := cps "X-Mailer: WPMailSMTP/Mailer/smtp ".

(** The header lines the pattern asks for, with the digits of the two
    version numbers and with or without the line of the transfer encoding,
    up to the empty line. *)
Definition preamble (d1 d2 d3 d4 d5 : char) (encoding : bool) : str :=
  MAILER_SIGNATURE ++ [d1] ++ cps "." ++ [d2] ++ cps "." ++ [d3]
  ++ [LF] ++ cps "MIME-Version: " ++ [d4] ++ cps "." ++ [d5]
  ++ [LF] ++ cps "Content-Type: text/plain; charset=UTF-8"
  ++ (if encoding then [LF] ++ cps "Content-Transfer-Encoding: 8bit" else [])
  ++ [LF; LF].

(** The line of the column names, which ends with a comma. *)
Definition COLUMN_LINE : str := join [COMMA] (map quoted HEADER_ROW) ++ [COMMA].

(** A data line: the values between double quotes, separated by commas. *)
Definition data_line (values : list str) : str :=
  join [COMMA] (map (fun v => [DQUOTE] ++ v ++ [DQUOTE]) values).

Definition registration_block (d1 d2 d3 d4 d5 : char) (encoding : bool)
    (values : list str) : str :=
  preamble d1 d2 d3 d4 d5 encoding ++ COLUMN_LINE ++ [LF] ++ data_line values.

(** A value fits a group when it is a run of characters of the group's
    set, of at least the least length. *)
Definition field_ok (spec : string * cset * nat) (v : str) : Prop :=
  Forall (fun c => cset_mem spec.1.2 c = true) v ∧ (spec.2 ≤ length v)%nat.

(** Sixteen values, one fitting each named group of the pattern. *)
Definition values_ok (values : list str) : Prop :=
  Forall2 field_ok (mandatory EXTRACTION_REGEXP) values.

(** [leads r input rest g g']: on the text [input] the matcher's first way
    through the pattern [r] leaves [rest] and sets the groups to [g'], and
    the match succeeds if what follows succeeds there. *)
Definition leads (r : regex) (input rest : str) (g g' : captures) : Prop :=
  ∀ (R : Type) (k : str → captures → option R) (x : R),
    k rest g' = Some x → rmatch r input g k = Some x.

(** The groups of a match of the data line with the given values. *)
Definition groups_of (values : list str) : captures :=
  foldl (fun g p => <[p.1 := p.2]> g) ∅ (zip HEADER_ROW values).

(** Whether [needle] occurs in [s] at one of the first [n] positions. *)
Fixpoint starts_before (n : nat) (needle s : str) : bool :=
  match n with
  | O => false
  | S n' =>
      match strip_prefix needle s with
      | Some _ => true
      | None =>
          match s with
          | [] => false
          | _ :: s' => starts_before n' needle s'
          end
      end
  end.

(** The header lines of the example message before the line of the mailer. *)
Definition example_before : str :=
  concat (map (fun h => cps (fst h) ++ cps ": " ++ snd h ++ [LF]) allowed_headers).


(** ** The line of a record in the file *)

(** Whether a value holds a comma or a character of a line end. *)
Definition needs_quotes (v : str) : bool :=
  existsb (fun c => bool_decide (c = COMMA) || bool_decide (c = CR)
                    || bool_decide (c = LF)) v.

(** A value as it stands in the file when it holds no double quote. *)
Definition file_field (v : str) : str :=
  if needs_quotes v then [DQUOTE] ++ v ++ [DQUOTE] else v.

Definition file_line (values : list str) : str :=
  join [COMMA] (map file_field values) ++ [CR; LF].

(** Sixteen values, one of them with a comma. *)
Definition comma_values : list string :=
  ["7"; "k7"; "2"; "paid, in cash"; "Doe"; "Jane"; "jane@example.org";
   ""; ""; ""; ""; ""; ""; ""; ""; ""].


(** * Properties *)

(** ** The matcher *)

Lemma strip_prefix_sound (l s s' : str) :
  strip_prefix l s = Some s' → s = l ++ s'.
Proof.
  revert s. induction l as [|a l IH]; intros [|b s]; simpl; try congruence.
  case_bool_decide as Hab; [|congruence]. intros Hs. subst. f_equal. auto.
Qed.

Lemma consumed_app (t s' : str) : consumed (t ++ s') s' = t.
Proof.
  unfold consumed. rewrite length_app.
  replace (length t + length s' - length s')%nat with (length t) by lia.
  by rewrite take_app_length.
Qed.

Lemma rep_sound {R} cs lo (s : str) : ∀ n (k : str → option R) x,
  rep cs lo n s k = Some x →
  ∃ t s', s = t ++ s' ∧ Forall (fun c => cset_mem cs c = true) t
          ∧ (lo ≤ n + length t)%nat ∧ k s' = Some x.
Proof.
  assert (Hstop : ∀ n (s0 : str) (k : str → option R) x,
    (if (lo <=? n)%nat then k s0 else None) = Some x →
    ∃ t s', s0 = t ++ s' ∧ Forall (fun c => cset_mem cs c = true) t
            ∧ (lo ≤ n + length t)%nat ∧ k s' = Some x).
  { intros n s0 k x H. destruct (Nat.leb_spec lo n); [|discriminate].
    exists [], s0. repeat split; auto. simpl. lia. }
  induction s as [|c s IH]; intros n k x; simpl.
  - apply Hstop.
  - destruct (cset_mem cs c) eqn:Hc; [|apply Hstop].
    destruct (rep cs lo (S n) s k) eqn:Hr; [|apply Hstop].
    intros [= ->]. destruct (IH _ _ _ Hr) as (t & s' & -> & Ht & Hlen & Hk).
    exists (c :: t), s'. repeat split; auto. simpl. lia.
Qed.

Lemma rmatch_sound {R} (r : regex) : ∀ (s : str) (g : captures)
    (k : str → captures → option R) x,
  rmatch r s g k = Some x →
  ∃ t s' g', s = t ++ s' ∧ sem r t g g' ∧ k s' g' = Some x.
Proof.
  induction r as [l|cs|r1 IH1 r2 IH2|r1 IH1|cs lo|r1 IH1|n r1 IH1];
    intros s g k x; simpl.
  - destruct (strip_prefix l s) as [s'|] eqn:Hp; [|discriminate].
    intros Hk. exists l, s', g. split; [by apply strip_prefix_sound|].
    split; [constructor|done].
  - destruct s as [|c s]; [discriminate|].
    destruct (cset_mem cs c) eqn:Hc; [|discriminate].
    intros Hk. exists [c], s, g. split; [done|]. split; [by constructor|done].
  - intros H. apply IH1 in H as (t1 & s1 & g1 & -> & Hs1 & H).
    apply IH2 in H as (t2 & s2 & g2 & -> & Hs2 & H).
    exists (t1 ++ t2), s2, g2. rewrite <- app_assoc. split; [done|].
    split; [by econstructor|done].
  - destruct (rmatch r1 s g k) eqn:Hm.
    + intros [= ->]. apply IH1 in Hm as (t & s' & g' & -> & Hs & H).
      exists t, s', g'. split; [done|]. split; [by constructor|done].
    + intros Hk. exists [], s, g. split; [done|]. split; [apply sem_opt_none|done].
  - intros H. apply rep_sound in H as (t & s' & -> & Ht & Hlen & Hk).
    exists t, s', g. split; [done|]. split; [by constructor|done].
  - intros H. apply IH1 in H as (t & s' & g' & -> & Hs & H).
    exists t, s', g'. split; [done|]. split; [by constructor|done].
  - intros H. apply IH1 in H as (t & s' & g' & -> & Hs & H).
    rewrite consumed_app in H.
    exists t, s', (<[n := t]> g'). split; [done|]. split; [by constructor|done].
Qed.

(** A successful search has matched some part of the text. *)
Lemma re_search_sound (r : regex) (text : str) (m : re_match) :
  re_search r text = Some m →
  ∃ before t after, text = before ++ t ++ after ∧ sem r t ∅ (m_groups m).
Proof.
  unfold re_search. generalize 0%nat.
  induction text as [|c text IH]; intros pos; simpl.
  - destruct (match_at r pos []) eqn:Hm; [|discriminate].
    intros [= ->]. unfold match_at in Hm.
    apply rmatch_sound in Hm as (t & s' & g' & Heq & Hs & [= <-]).
    exists [], t, s'. simpl. done.
  - destruct (match_at r pos (c :: text)) eqn:Hm.
    + intros [= ->]. unfold match_at in Hm.
      apply rmatch_sound in Hm as (t & s' & g' & Heq & Hs & [= <-]).
      exists [], t, s'. simpl. done.
    + intros H. apply IH in H as (before & t & after & -> & Hs).
      exists (c :: before), t, after. done.
Qed.

Lemma mandatory_names (r : regex) n cs lo :
  (n, cs, lo) ∈ mandatory r → n ∈ group_names r.
Proof.
  induction r as [l|cs'|r1 IH1 r2 IH2|r1 IH1|cs' lo'|r1 IH1|n' r1 IH1]; simpl;
    try (by intros ?%elem_of_nil); auto.
  - rewrite !elem_of_app. intros [?|?]; auto.
  - destruct r1; simpl in *; try (by intros ?%elem_of_nil);
      try (intros ?; apply elem_of_cons; right; by apply IH1).
    intros [=]%list_elem_of_singleton. subst. apply elem_of_cons. by left.
Qed.

(** Groups of a pattern with distinct names: a match leaves the other names
    alone and sets every mandatory group to a run of its set. *)
Lemma sem_groups (r : regex) (t : str) (g g' : captures) :
  sem r t g g' → NoDup (group_names r) →
  (∀ n, n ∉ group_names r → g' !! n = g !! n)
  ∧ (∀ n cs lo, (n, cs, lo) ∈ mandatory r →
       ∃ v, g' !! n = Some v ∧ Forall (fun c => cset_mem cs c = true) v
            ∧ (lo ≤ length v)%nat).
Proof.
  induction 1 as [l g|cs c g Hc|r1 r2 t1 t2 g g' g'' H1 IH1 H2 IH2
                 |r t g g' H IH|r g|cs lo t g Ht Hlen|r t g g' H IH
                 |n r t g g' H IH]; simpl; intros Hnd;
    try (split; [done|by intros ??? ?%elem_of_nil]).
  - apply NoDup_app in Hnd as (Hnd1 & Hdisj & Hnd2).
    destruct (IH1 Hnd1) as [Hk1 Hm1]. destruct (IH2 Hnd2) as [Hk2 Hm2]. split.
    + intros n Hn. rewrite elem_of_app in Hn.
      rewrite Hk2, Hk1; auto.
    + intros n cs lo [Hin|Hin]%elem_of_app; [|by apply Hm2].
      destruct (Hm1 _ _ _ Hin) as (v & Hv & ?). exists v. split; [|done].
      rewrite Hk2; [done|]. apply Hdisj. by eapply mandatory_names.
  - split; [|by intros ??? ?%elem_of_nil]. by apply IH.
  - by apply IH.
  - apply NoDup_cons in Hnd as [Hn Hnd]. destruct (IH Hnd) as [Hk Hm]. split.
    + intros n' Hn'. rewrite not_elem_of_cons in Hn'. destruct Hn' as [Hne Hn'].
      rewrite lookup_insert_ne by done. by apply Hk.
    + assert (Hrest : ∀ n' cs lo, (n', cs, lo) ∈ mandatory r →
        ∃ v, <[n:=t]> g' !! n' = Some v
             ∧ Forall (fun c => cset_mem cs c = true) v ∧ (lo ≤ length v)%nat).
      { intros n' cs lo Hin. destruct (Hm _ _ _ Hin) as (v & Hv & ?).
        exists v. split; [|done]. rewrite lookup_insert_ne; [done|].
        intros ->. apply Hn. by eapply mandatory_names. }
      destruct r; try exact Hrest.
      intros n' cs' lo' [=]%list_elem_of_singleton. subst.
      inversion H; subst. exists t. by rewrite lookup_insert_eq.
Qed.

(** ** The extraction pattern *)

Lemma extraction_names : group_names EXTRACTION_REGEXP = HEADER_ROW.
Proof. reflexivity. Qed.

Lemma extraction_names_NoDup : NoDup (group_names EXTRACTION_REGEXP).
Proof. compute_done. Qed.

Lemma groupdict_lookup (r : regex) (m : re_match) (n : string) :
  NoDup (group_names r) → n ∈ group_names r →
  groupdict r m !! n = Some (group_value m n).
Proof.
  intros Hnd Hin. unfold groupdict. apply elem_of_list_to_map_1.
  - rewrite <- list_fmap_compose. simpl.
    replace (fst ∘ _) with (@id string) by done. by rewrite list_fmap_id.
  - apply list_elem_of_fmap. by exists n.
Qed.

Lemma getitem_groupdict (m : re_match) (n : string) :
  n ∈ HEADER_ROW →
  getitem (groupdict EXTRACTION_REGEXP m) n = inr (group_value m n).
Proof.
  intros Hin. unfold getitem.
  rewrite groupdict_lookup; [done|apply extraction_names_NoDup|done].
Qed.

Lemma init_groupdict (m : re_match) :
  RegistrationData_init (groupdict EXTRACTION_REGEXP m) = inr (entry_of_match m).
Proof.
  unfold RegistrationData_init.
  rewrite !getitem_groupdict by compute_done. reflexivity.
Qed.

Lemma entry_of_match_row (m : re_match) :
  registration_row (entry_of_match m) = map (group_value m) HEADER_ROW.
Proof. reflexivity. Qed.

(** After a successful search every named group holds a run of the
    characters of its set, of at least the least length. *)
Lemma search_groups (text : str) (m : re_match) n cs lo :
  re_search EXTRACTION_REGEXP text = Some m →
  (n, cs, lo) ∈ mandatory EXTRACTION_REGEXP →
  ∃ v, m_groups m !! n = Some v ∧ group_value m n = PyStr v
       ∧ Forall (fun c => cset_mem cs c = true) v ∧ (lo ≤ length v)%nat.
Proof.
  intros Hs Hin. apply re_search_sound in Hs as (before & t & after & _ & Hsem).
  apply sem_groups in Hsem as [_ Hm]; [|apply extraction_names_NoDup].
  destruct (Hm _ _ _ Hin) as (v & Hv & Hall & Hlen).
  exists v. split; [done|]. split; [|done]. unfold group_value. by rewrite Hv.
Qed.

Lemma mandatory_extraction :
  mandatory EXTRACTION_REGEXP =
  [("eintrags_id", CDigit, 1%nat); ("key", CNot DQUOTE, 1%nat);
   ("anzahl_personen", CDigit, 1%nat); ("zahlungsstatus", CNot DQUOTE, 0%nat);
   ("name", CNot DQUOTE, 1%nat); ("vorname", CNot DQUOTE, 1%nat);
   ("mail", CNot DQUOTE, 1%nat); ("telefon", CNot DQUOTE, 0%nat);
   ("sonstiges", CNot DQUOTE, 0%nat); ("club", CNot DQUOTE, 0%nat);
   ("teilnehmer_2", CNot DQUOTE, 0%nat); ("teilnehmer_3", CNot DQUOTE, 0%nat);
   ("teilnehmer_4", CNot DQUOTE, 0%nat); ("teilnehmer_5", CNot DQUOTE, 0%nat);
   ("teilnehmer_6", CNot DQUOTE, 0%nat); ("teilnehmer_7", CNot DQUOTE, 0%nat)].
Proof. reflexivity. Qed.

(** Neither set of the pattern's groups holds the double quote. *)
Lemma group_sets_exclude_quote n cs lo :
  (n, cs, lo) ∈ mandatory EXTRACTION_REGEXP → cset_mem cs DQUOTE = false.
Proof.
  rewrite mandatory_extraction. intros Hin.
  repeat (apply elem_of_cons in Hin as [[= -> -> ->]|Hin]; [reflexivity|]).
  by apply elem_of_nil in Hin.
Qed.

Lemma group_names_mandatory n :
  n ∈ HEADER_ROW → ∃ cs lo, (n, cs, lo) ∈ mandatory EXTRACTION_REGEXP.
Proof.
  rewrite mandatory_extraction. unfold HEADER_ROW. intros Hin.
  repeat (apply elem_of_cons in Hin as [->|Hin];
          [do 2 eexists;
           repeat first [apply list_elem_of_here|apply list_elem_of_further]|]).
  by apply elem_of_nil in Hin.
Qed.

(** ** One turn of the loop *)

Lemma world_eq (w1 w2 : world) :
  stdout w1 = stdout w2 → files w1 = files w2 → imap_trace w1 = imap_trace w2 →
  w1 = w2.
Proof. destruct w1, w2; simpl; congruence. Qed.

Lemma process_message_outcome env regs idx w :
  process_message env regs idx w =
  match outcome_of env idx with
  | Skip n => (put_line n (put_cmd (Fetch idx) w), inr regs)
  | Collect entry => (put_cmd (Fetch idx) w, inr (regs ++ [entry]))
  | Abort e => (put_cmd (Fetch idx) w, inl e)
  end.
Proof.
  unfold process_message, outcome_of, fetch_message, message_outcome,
    bind, send, lift, print, ret.
  generalize EXTRACTION_REGEXP; intros r; simpl.
  destruct (imap_fetch env idx) as [e|raw]; simpl; [done|].
  destruct (decode_utf8 raw) as [e|decoded]; simpl; [done|].
  destruct (message_from_string env decoded) as [e|msg]; simpl; [done|].
  destruct (check_if_message_to_skip msg); simpl; [done|].
  destruct (re_search r (msg_text msg)) as [m|]; simpl; [|done].
  by destruct (RegistrationData_init (groupdict r m)).
Qed.

(** ** The loop *)

Lemma for_each_app {A S} (l1 l2 : list A) (body : S → A → M S) (s : S) (w : world) :
  for_each (l1 ++ l2) body s w =
  match for_each l1 body s w with
  | (w', inr s') => for_each l2 body s' w'
  | (w', inl e) => (w', inl e)
  end.
Proof.
  revert s w. induction l1 as [|a l1 IH]; intros s w; simpl; [done|].
  unfold bind. destruct (body s a w) as [w' [e|s']]; [done|]. apply IH.
Qed.

Lemma loop_world_nil env w : loop_world env [] w = w.
Proof. apply world_eq; simpl; by rewrite ?app_nil_r. Qed.

Lemma loop_ok env ids : ∀ regs w,
  Forall (fun idx => aborts (outcome_of env idx) = false) ids →
  for_each ids (process_message env) regs w =
  (loop_world env ids w, inr (regs ++ entries env ids)).
Proof.
  induction ids as [|idx ids IH]; intros regs w Hok; simpl.
  - unfold ret. by rewrite loop_world_nil, app_nil_r.
  - apply Forall_cons in Hok as [Hidx Hok]. unfold bind.
    rewrite process_message_outcome. unfold notices, entries, loop_world. simpl.
    destruct (outcome_of env idx) as [n|entry|e] eqn:Ho; simpl in *; [| |done].
    + rewrite IH by done. f_equal.
      apply world_eq; simpl; by rewrite <- ?app_assoc.
    + rewrite IH by done. f_equal; [|by rewrite <- app_assoc].
      apply world_eq; simpl; by rewrite <- ?app_assoc.
Qed.

Lemma loop_abort env pre idx post e regs w :
  Forall (fun i => aborts (outcome_of env i) = false) pre →
  outcome_of env idx = Abort e →
  for_each (pre ++ idx :: post) (process_message env) regs w =
  (put_cmd (Fetch idx) (loop_world env pre w), inl e).
Proof.
  intros Hpre Hidx. rewrite for_each_app, loop_ok by done. simpl.
  unfold bind. by rewrite process_message_outcome, Hidx.
Qed.

(** Either no turn aborts, or there is a first one that does. *)
Lemma first_abort env (ids : list N) :
  Forall (fun i => aborts (outcome_of env i) = false) ids
  ∨ ∃ pre idx post e, ids = pre ++ idx :: post
      ∧ Forall (fun i => aborts (outcome_of env i) = false) pre
      ∧ outcome_of env idx = Abort e.
Proof.
  induction ids as [|i ids IH]; [by left|].
  destruct (outcome_of env i) as [n|entry|e] eqn:Ho.
  - destruct IH as [Hok|(pre & idx & post & e & -> & Hpre & Hidx)].
    + left. constructor; [by rewrite Ho|done].
    + right. exists (i :: pre), idx, post, e. split; [done|].
      split; [|done]. constructor; [by rewrite Ho|done].
  - destruct IH as [Hok|(pre & idx & post & e & -> & Hpre & Hidx)].
    + left. constructor; [by rewrite Ho|done].
    + right. exists (i :: pre), idx, post, e. split; [done|].
      split; [|done]. constructor; [by rewrite Ho|done].
  - right. by exists [], i, ids, e.
Qed.

(** The loop ends normally exactly when no turn aborts. *)
Lemma loop_returns env ids regs w w' regs' :
  for_each ids (process_message env) regs w = (w', inr regs') →
  Forall (fun i => aborts (outcome_of env i) = false) ids
  ∧ w' = loop_world env ids w ∧ regs' = regs ++ entries env ids.
Proof.
  intros H. destruct (first_abort env ids)
    as [Hok|(pre & idx & post & e & -> & Hpre & Hidx)].
  - rewrite loop_ok in H by done. by simplify_eq.
  - by rewrite (loop_abort _ _ _ _ e) in H.
Qed.

Lemma loop_files env ids regs w :
  files (for_each ids (process_message env) regs w).1 = files w.
Proof.
  destruct (first_abort env ids)
    as [Hok|(pre & idx & post & e & -> & Hpre & Hidx)].
  - by rewrite loop_ok.
  - by rewrite (loop_abort _ _ _ _ e).
Qed.

(** ** The retrieval as a whole *)

(** The steps of the retrieval spelled out: every command that fails ends
    the session after the logout that leaving the with block sends. *)
Lemma retrieve_eq env args w :
  retrieve_registrations_from_server env args w =
  let password := getpass env (password_prompt (imap_user args)) in
  let w1 := put_cmd (Connect (server_url args) (port args)) w in
  match imap_connect env (server_url args) (port args) with
  | Some e => (w1, inl e)
  | None =>
    let w2 := put_cmd (Login (imap_user args) password) w1 in
    match imap_login env (imap_user args) password with
    | Some e => (put_cmd Logout w2, inl e)
    | None =>
      let w3 := put_cmd (Select MAILBOX_FOR_DOWNLOAD true) w2 in
      match imap_select env MAILBOX_FOR_DOWNLOAD true with
      | Some e => (put_cmd Logout w3, inl e)
      | None =>
        let w4 := put_cmd Search w3 in
        match imap_search_all env with
        | inl e => (put_cmd Logout w4, inl e)
        | inr ids =>
          match for_each ids (process_message env) [] w4 with
          | (w5, inl e) => (put_cmd Logout w5, inl e)
          | (w5, inr regs) =>
            match imap_close env with
            | Some e => (put_cmd Logout (put_cmd Close w5), inl e)
            | None => (put_cmd Logout (put_cmd Close w5), inr regs)
            end
          end
        end
      end
    end
  end.
Proof.
  unfold retrieve_registrations_from_server, bind, finally, check, send, lift,
    ret, raise.
  cbv zeta. cbn beta iota.
  destruct (imap_connect env (server_url args) (port args)); [done|].
  cbn beta iota.
  destruct (imap_login env _ _); [done|]. cbn beta iota.
  destruct (imap_select env _ _); [done|]. cbn beta iota.
  destruct (imap_search_all env) as [e|ids]; [done|]. cbn beta iota.
  destruct (for_each ids _ _ _) as [w5 [e|regs]]; [done|]. cbn beta iota.
  by destruct (imap_close env).
Qed.

(** The retrieval never touches the files. *)
Lemma retrieve_files env args w :
  files (retrieve_registrations_from_server env args w).1 = files w.
Proof.
  rewrite retrieve_eq. cbv zeta.
  destruct (imap_connect env _ _); [done|].
  destruct (imap_login env _ _); [done|].
  destruct (imap_select env _ _); [done|].
  destruct (imap_search_all env) as [e|ids]; [done|].
  pose proof (loop_files env ids []
    (put_cmd Search (put_cmd (Select MAILBOX_FOR_DOWNLOAD true)
      (put_cmd (Login (imap_user args)
                  (getpass env (password_prompt (imap_user args))))
         (put_cmd (Connect (server_url args) (port args)) w))))) as Hf.
  destruct (for_each ids _ _ _) as [w5 [e|regs]]; simpl in *; [done|].
  by destruct (imap_close env).
Qed.

(** A retrieval that returns has seen every message of the mailbox, none of
    them aborting; it returns their records and has printed their notices. *)
Lemma retrieve_returns env args w w' regs :
  retrieve_registrations_from_server env args w = (w', inr regs) →
  ∃ ids, imap_search_all env = inr ids
    ∧ Forall (fun i => aborts (outcome_of env i) = false) ids
    ∧ regs = entries env ids
    ∧ stdout w' = stdout w ++ notices env ids
    ∧ files w' = files w.
Proof.
  rewrite retrieve_eq. cbv zeta.
  destruct (imap_connect env _ _); [done|].
  destruct (imap_login env _ _); [done|].
  destruct (imap_select env _ _); [done|].
  destruct (imap_search_all env) as [e|ids]; [done|].
  destruct (for_each ids _ _ _) as [w5 [e|regs5]] eqn:Hloop; [done|].
  apply loop_returns in Hloop as (Hok & -> & ->).
  destruct (imap_close env); [done|]. intros [= <- <-].
  exists ids. by repeat split.
Qed.


(** ** main *)

Lemma main_eq env w :
  main env w =
  match parse_args env with
  | inl e => (w, inl e)
  | inr args =>
    match retrieve_registrations_from_server env args w with
    | (w', inl e) => (w', inl e)
    | (w', inr regs) => write_registrations_to_csv regs EXPORT_FILE w'
    end
  end.
Proof.
  unfold main, bind, lift. by destruct (parse_args env).
Qed.

(** ** Writing the file *)

Lemma put_files_files fs w : files (put_files fs w) = fs.
Proof. done. Qed.

Lemma write_rows file (regs : list RegistrationData) : ∀ t fs w,
  for_each regs (fun _ entry => write_to_csv entry file) tt
    (put_files (<[file := t]> fs) w) =
  (put_files (<[file := t ++ concat (map (fun entry =>
      csv_record (registration_row entry)) regs)]> fs) w, inr tt).
Proof.
  induction regs as [|entry regs IH]; intros t fs w; simpl.
  - by rewrite app_nil_r.
  - unfold bind, write_to_csv, writerow, file_write. simpl.
    rewrite alter_insert_eq. unfold put_files at 1. simpl.
    change {| stdout := stdout w; files := ?f; imap_trace := imap_trace w |}
      with (put_files f w).
    rewrite IH. by rewrite <- app_assoc.
Qed.

(** The file written is the header row followed by one row for each
    record, in the order of the list; whatever the file held is gone. *)
Lemma write_registrations_eq regs file w :
  write_registrations_to_csv regs file w =
  (put_files (<[file := export_text regs]> (files w)) w, inr tt).
Proof.
  unfold write_registrations_to_csv, bind, open_wt, write_header_to_csv,
    writerow, file_write. simpl.
  rewrite alter_insert_eq. unfold put_files at 2 3. simpl.
  change {| stdout := stdout w; files := ?f; imap_trace := imap_trace w |}
    with (put_files f w).
  rewrite write_rows. unfold export_text, export_rows. cbn [map concat].
  by rewrite map_map.
Qed.

(** ** Reading by lines and reading the text as a whole *)

Lemma process_chars_app (r : reader) (l1 l2 : str) :
  process_chars r (l1 ++ l2) = (r' <~ process_chars r l1; process_chars r' l2).
Proof.
  revert r. induction l1 as [|c l1 IH]; intros r; simpl; [done|].
  destruct (parse_process_char r (Ch c)); simpl; [done|]. apply IH.
Qed.

Lemma snoc_not_nil (l : str) (c : char) : l ++ [c] ≠ [].
Proof. by destruct l. Qed.

Lemma read_line_then (r0 : reader) (cur line_end : str) (rest : list str) :
  read_all r0 ((cur ++ line_end) :: rest) =
  (r <~ process_chars r0 cur;
   r1 <~ process_chars r line_end;
   after_line r1 (fun r' => read_all r' rest)).
Proof.
  simpl. unfold process_line, after_line. rewrite process_chars_app.
  destruct (process_chars r0 cur) as [e|r]; simpl; [done|].
  by destruct (process_chars r line_end) as [e|r1].
Qed.

Lemma run_cons (mid : bool) (r : reader) (c : char) (s' : str) :
  run mid r (c :: s') =
  (r1 <~ parse_process_char r (Ch c);
   if bool_decide (c = LF) then after_line r1 (fun r' => run false r' s')
   else if bool_decide (c = CR) then
     match s' with
     | d :: s'' =>
         if bool_decide (d = LF) then
           r2 <~ parse_process_char r1 (Ch d);
           after_line r2 (fun r' => run false r' s'')
         else after_line r1 (fun r' => run false r' s')
     | [] => after_line r1 (fun r' => run false r' s')
     end
   else run true r1 s').
Proof. reflexivity. Qed.

Lemma after_line_ext (r : reader) (k1 k2 : reader → result (list (list str))) :
  (∀ r', k1 r' = k2 r') → after_line r k1 = after_line r k2.
Proof.
  intros Hk. unfold after_line.
  destruct (parse_process_char r EOL) as [e|r']; simpl; [done|].
  by rewrite !Hk.
Qed.

(** An error inside the line being read is the error of the whole. *)
Lemma read_all_error (s : str) : ∀ (cur : str) (r0 : reader) (e : exn),
  cur ≠ [] → process_chars r0 cur = inl e →
  read_all r0 (readlines_from cur s) = inl e.
Proof.
  induction s as [|c s IH]; intros cur r0 e Hcur He; simpl readlines_from.
  - rewrite bool_decide_eq_false_2 by done.
    rewrite <- (app_nil_r cur). by rewrite read_line_then, He.
  - case_bool_decide; [by rewrite read_line_then, He|].
    case_bool_decide.
    + destruct s as [|d s]; [by rewrite read_line_then, He|].
      case_bool_decide; by rewrite read_line_then, He.
    + apply IH; [apply snoc_not_nil|]. by rewrite process_chars_app, He.
Qed.

Lemma read_all_run_aux (n : nat) : ∀ (s : str), (length s ≤ n)%nat →
  ∀ (cur : str) (r0 r : reader), process_chars r0 cur = inr r →
  read_all r0 (readlines_from cur s) = run (bool_decide (cur ≠ [])) r s.
Proof.
  induction n as [|n IH]; intros s Hn cur r0 r Hr.
  - destruct s; [|simpl in Hn; lia]. simpl readlines_from.
    case_bool_decide as Hcur.
    + subst. simpl in Hr. by simplify_eq.
    + rewrite bool_decide_eq_true_2 by done.
      rewrite <- (app_nil_r cur) at 1. rewrite read_line_then, Hr. done.
  - destruct s as [|c s]; [apply (IH []); [simpl; lia|done]|].
    simpl in Hn. simpl readlines_from. rewrite run_cons.
    assert (Hnil : ∀ (t : str) r1, (length t ≤ n)%nat →
              after_line r1 (fun r' => read_all r' (readlines_from [] t))
              = after_line r1 (fun r' => run false r' t)).
    { intros t r1 Ht. apply after_line_ext. intros r'.
      by rewrite (IH t Ht [] r' r'). }
    case_bool_decide as HLF.
    { subst c. rewrite read_line_then, Hr. cbn [rbind process_chars].
      destruct (parse_process_char r (Ch LF)) as [e|r1]; cbn [rbind]; [done|].
      by rewrite Hnil by lia. }
    case_bool_decide as HCR.
    { subst c. destruct s as [|d s].
      - rewrite read_line_then, Hr. cbn [rbind process_chars].
        destruct (parse_process_char r (Ch CR)) as [e|r1]; cbn [rbind]; done.
      - simpl in Hn. case_bool_decide as HdLF.
        + subst d. rewrite (read_line_then r0 cur [CR; LF]), Hr.
          cbn [rbind process_chars].
          destruct (parse_process_char r (Ch CR)) as [e|r1]; cbn [rbind]; [done|].
          destruct (parse_process_char r1 (Ch LF)) as [e|r2]; cbn [rbind]; [done|].
          by rewrite Hnil by lia.
        + rewrite (read_line_then r0 cur [CR]), Hr. cbn [rbind process_chars].
          destruct (parse_process_char r (Ch CR)) as [e|r1]; cbn [rbind]; [done|].
          by rewrite (Hnil (d :: s)) by (simpl; lia). }
    destruct (parse_process_char r (Ch c)) as [e|r1] eqn:Hc; cbn [rbind].
    + apply read_all_error; [apply snoc_not_nil|].
      rewrite process_chars_app, Hr. simpl. by rewrite Hc.
    + rewrite (IH s ltac:(lia) (cur ++ [c]) r0 r1).
      * by rewrite (bool_decide_eq_true_2 _ (snoc_not_nil cur c)).
      * rewrite process_chars_app, Hr. simpl. by rewrite Hc.
Qed.

(** Reading the lines of a text is running the reader over the text. *)
Lemma csv_read_run (text : str) : csv_read text = run false parse_reset text.
Proof.
  unfold csv_read, readlines.
  by rewrite (read_all_run_aux (length text) text (Nat.le_refl _) []
               parse_reset parse_reset).
Qed.

(** ** The reader on what the writer wrote *)

Lemma csv_special_false (c : char) :
  csv_special c = false ↔ c ≠ COMMA ∧ c ≠ DQUOTE ∧ c ≠ CR ∧ c ≠ LF.
Proof.
  unfold csv_special. rewrite !orb_false_iff, !bool_decide_eq_false. tauto.
Qed.

Lemma newline_false (c : char) : c ≠ LF → c ≠ CR → newline c = false.
Proof.
  intros. unfold newline. by rewrite !bool_decide_eq_false_2.
Qed.

Lemma run_ordinary (mid : bool) (r : reader) (c : char) (s : str) :
  c ≠ LF → c ≠ CR →
  run mid r (c :: s) = (r1 <~ parse_process_char r (Ch c); run true r1 s).
Proof.
  intros. rewrite run_cons. by rewrite !bool_decide_eq_false_2.
Qed.

(** Inside a quoted field. *)
Lemma ppc_quoted_other fs acc (c : char) :
  c ≠ DQUOTE →
  parse_process_char (Rd IN_QUOTED_FIELD fs acc) (Ch c)
  = inr (Rd IN_QUOTED_FIELD fs (acc ++ [c])).
Proof.
  intros. unfold parse_process_char. simpl. by rewrite bool_decide_eq_false_2.
Qed.

Lemma run_quoted_lf mid fs acc (s : str) :
  run mid (Rd IN_QUOTED_FIELD fs acc) (LF :: s)
  = run false (Rd IN_QUOTED_FIELD fs (acc ++ [LF])) s.
Proof. reflexivity. Qed.

Lemma run_quoted_crlf mid fs acc (s : str) :
  run mid (Rd IN_QUOTED_FIELD fs acc) (CR :: LF :: s)
  = run false (Rd IN_QUOTED_FIELD fs ((acc ++ [CR]) ++ [LF])) s.
Proof. reflexivity. Qed.

Lemma run_quoted_cr_end mid fs acc :
  run mid (Rd IN_QUOTED_FIELD fs acc) [CR]
  = run false (Rd IN_QUOTED_FIELD fs (acc ++ [CR])) [].
Proof. reflexivity. Qed.

Lemma run_quoted_cr mid fs acc (d : char) (s : str) :
  d ≠ LF →
  run mid (Rd IN_QUOTED_FIELD fs acc) (CR :: d :: s)
  = run false (Rd IN_QUOTED_FIELD fs (acc ++ [CR])) (d :: s).
Proof.
  intros Hd. rewrite run_cons. cbn [bool_decide]. 
  change (bool_decide (CR = LF)) with false.
  change (bool_decide (CR = CR)) with true. cbv iota.
  rewrite (bool_decide_eq_false_2 _ Hd). reflexivity.
Qed.

Lemma run_quoted_quote mid fs acc (s : str) :
  run mid (Rd IN_QUOTED_FIELD fs acc) (DQUOTE :: s)
  = run true (Rd QUOTE_IN_QUOTED_FIELD fs acc) s.
Proof. reflexivity. Qed.

Lemma run_quoted_quote_quote mid fs acc (s : str) :
  run mid (Rd IN_QUOTED_FIELD fs acc) (DQUOTE :: DQUOTE :: s)
  = run true (Rd IN_QUOTED_FIELD fs (acc ++ [DQUOTE])) s.
Proof. reflexivity. Qed.

Lemma csv_escape_cons (c : char) (f : str) :
  csv_escape (c :: f) =
  (if bool_decide (c = DQUOTE) then [DQUOTE; DQUOTE] else [c]) ++ csv_escape f.
Proof. reflexivity. Qed.

(** An escaped text begins with a line feed only if the text does. *)
Lemma csv_escape_head (d : char) (f rest : str) :
  d ≠ LF →
  ∃ d' t, csv_escape (d :: f) ++ DQUOTE :: rest = d' :: t ∧ d' ≠ LF.
Proof.
  intros Hd. rewrite csv_escape_cons. case_bool_decide.
  - by exists DQUOTE, ([DQUOTE] ++ csv_escape f ++ DQUOTE :: rest).
  - by exists d, (csv_escape f ++ DQUOTE :: rest).
Qed.

(** The body of a quoted field and its closing quote: the reader has the
    field's characters, whatever line ends are among them. *)
Lemma run_quoted_body (n : nat) : ∀ (f : str), (length f ≤ n)%nat →
  ∀ mid fs acc (rest : str),
  run mid (Rd IN_QUOTED_FIELD fs acc) (csv_escape f ++ DQUOTE :: rest)
  = run true (Rd QUOTE_IN_QUOTED_FIELD fs (acc ++ f)) rest.
Proof.
  induction n as [|n IH]; intros f Hn mid fs acc rest.
  - destruct f; [|simpl in Hn; lia]. simpl csv_escape. simpl app.
    by rewrite run_quoted_quote, app_nil_r.
  - destruct f as [|c f]; [apply (IH []); simpl; lia|]. simpl in Hn.
    rewrite csv_escape_cons. case_bool_decide as Hq.
    + subst c. simpl app. rewrite run_quoted_quote_quote.
      rewrite IH by lia. by rewrite <- app_assoc.
    + destruct (decide (c = LF)) as [->|HLF].
      { simpl app. rewrite run_quoted_lf, IH by lia. by rewrite <- app_assoc. }
      destruct (decide (c = CR)) as [->|HCR].
      { destruct f as [|d f].
        - change (csv_escape []) with (@nil char). simpl app.
          rewrite run_quoted_cr by done. by rewrite run_quoted_quote.
        - destruct (decide (d = LF)) as [->|HdLF].
          + simpl in Hn. rewrite csv_escape_cons.
            change (bool_decide (LF = DQUOTE)) with false. cbv iota. simpl app.
            rewrite run_quoted_crlf, IH by lia. by rewrite <- !app_assoc.
          + destruct (csv_escape_head d f rest HdLF) as (d' & t & Ht & Hd').
            rewrite <- app_assoc, Ht. simpl app. rewrite run_quoted_cr by done.
            rewrite <- Ht, IH by (simpl in *; lia). by rewrite <- app_assoc. }
      simpl app. rewrite run_ordinary, ppc_quoted_other by done.
      simpl rbind. rewrite IH by lia. by rewrite <- app_assoc.
Qed.

Lemma run_mid (m1 m2 : bool) (r : reader) (c : char) (s : str) :
  run m1 r (c :: s) = run m2 r (c :: s).
Proof. reflexivity. Qed.

(** An unquoted field. *)
Lemma ppc_field_other fs acc (c : char) :
  csv_special c = false →
  parse_process_char (Rd IN_FIELD fs acc) (Ch c)
  = inr (Rd IN_FIELD fs (acc ++ [c])).
Proof.
  intros (? & ? & ? & ?)%csv_special_false. unfold parse_process_char. simpl.
  rewrite newline_false by done. by rewrite bool_decide_eq_false_2.
Qed.

Lemma run_plain_body (f : str) : ∀ mid fs acc (c : char) (rest : str),
  existsb csv_special f = false →
  run mid (Rd IN_FIELD fs acc) (f ++ c :: rest)
  = run true (Rd IN_FIELD fs (acc ++ f)) (c :: rest).
Proof.
  induction f as [|d f IH]; intros mid fs acc c rest Hf.
  - rewrite app_nil_r. apply run_mid.
  - simpl in Hf. apply orb_false_iff in Hf as [Hd Hf].
    pose proof Hd as (? & ? & ? & ?)%csv_special_false.
    simpl app. rewrite run_ordinary, ppc_field_other by done. simpl rbind.
    rewrite IH by done. by rewrite <- app_assoc.
Qed.

Lemma ppc_start_other st fs (c : char) :
  st = START_RECORD ∨ st = START_FIELD → csv_special c = false →
  parse_process_char (Rd st fs []) (Ch c) = inr (Rd IN_FIELD fs [c]).
Proof.
  intros Hst (? & ? & ? & ?)%csv_special_false.
  unfold parse_process_char, start_field.
  destruct Hst as [-> | ->]; simpl; rewrite newline_false by done;
    by rewrite !bool_decide_eq_false_2.
Qed.

Lemma run_start_quote st mid fs acc (s : str) :
  st = START_RECORD ∨ st = START_FIELD →
  run mid (Rd st fs acc) (DQUOTE :: s) = run true (Rd IN_QUOTED_FIELD fs acc) s.
Proof. by intros [-> | ->]. Qed.

Lemma run_comma st mid fs acc (rest : str) :
  field_done st ∨ st = START_RECORD →
  run mid (Rd st fs acc) (COMMA :: rest)
  = run true (Rd START_FIELD (fs ++ [acc]) []) rest.
Proof. by intros [[]| ->]. Qed.

Lemma run_crlf st mid fs acc (rest : str) :
  field_done st →
  run mid (Rd st fs acc) (CR :: LF :: rest)
  = (rows <~ run false parse_reset rest; inr ((fs ++ [acc]) :: rows)).
Proof. by intros []. Qed.

Lemma run_crlf_empty mid fs acc (rest : str) :
  run mid (Rd START_RECORD fs acc) (CR :: LF :: rest)
  = (rows <~ run false parse_reset rest; inr (fs :: rows)).
Proof. reflexivity. Qed.

Lemma csv_quote_nil (f : str) : csv_quote f = [] → f = [].
Proof.
  unfold csv_quote. destruct (existsb csv_special f); [done|]. done.
Qed.

(** A field as the writer writes it, up to the character after it: the
    reader is at the end of a field that holds the field's text. *)
Lemma run_field st (f : str) mid fs (c : char) (rest : str) :
  st = START_RECORD ∨ st = START_FIELD → csv_quote f ≠ [] →
  ∃ st', field_done st'
    ∧ run mid (Rd st fs []) (csv_quote f ++ c :: rest)
      = run true (Rd st' fs f) (c :: rest).
Proof.
  intros Hst Hne. unfold csv_quote in *.
  destruct (existsb csv_special f) eqn:Hsp.
  - exists QUOTE_IN_QUOTED_FIELD. split; [constructor|].
    rewrite <- !app_assoc. simpl app. rewrite run_start_quote by done.
    by rewrite (run_quoted_body (length f) f (Nat.le_refl _)).
  - exists IN_FIELD. split; [constructor|].
    destruct f as [|d f]; [done|]. simpl in Hsp.
    apply orb_false_iff in Hsp as [Hd Hf].
    pose proof Hd as (? & ? & ? & ?)%csv_special_false.
    simpl app. rewrite run_ordinary, ppc_start_other by done. simpl rbind.
    by rewrite run_plain_body.
Qed.

Lemma field_then_comma st (f : str) mid fs (rest : str) :
  st = START_RECORD ∨ st = START_FIELD →
  run mid (Rd st fs []) (csv_quote f ++ COMMA :: rest)
  = run true (Rd START_FIELD (fs ++ [f]) []) rest.
Proof.
  intros Hst. destruct (decide (csv_quote f = [])) as [Hq|Hq].
  - rewrite Hq. apply csv_quote_nil in Hq as ->. simpl app.
    apply run_comma. destruct Hst as [-> | ->]; [by right|left; constructor].
  - destruct (run_field st f mid fs COMMA rest Hst Hq) as (st' & Hd & ->).
    apply run_comma. by left.
Qed.

Lemma field_then_crlf st (f : str) mid fs (rest : str) :
  st = START_FIELD ∨ (st = START_RECORD ∧ csv_quote f ≠ []) →
  run mid (Rd st fs []) (csv_quote f ++ CR :: LF :: rest)
  = (rows <~ run false parse_reset rest; inr ((fs ++ [f]) :: rows)).
Proof.
  intros Hst. destruct (decide (csv_quote f = [])) as [Hq|Hq].
  - destruct Hst as [-> | [_ ?]]; [|done].
    rewrite Hq. apply csv_quote_nil in Hq as ->. simpl app.
    apply run_crlf. constructor.
  - assert (Hst' : st = START_RECORD ∨ st = START_FIELD) by tauto.
    destruct (run_field st f mid fs CR (LF :: rest) Hst' Hq) as (st' & Hd & ->).
    by apply run_crlf.
Qed.

Lemma join_cons2 (sep x y : str) (l : list str) :
  join sep (x :: y :: l) = x ++ sep ++ join sep (y :: l).
Proof. reflexivity. Qed.

(** The fields of a row, separated by commas, and the end of the row. *)
Lemma run_fields (l : list str) : ∀ (f : str) st mid fs (rest : str),
  st = START_FIELD ∨ (st = START_RECORD ∧ (l ≠ [] ∨ csv_quote f ≠ [])) →
  run mid (Rd st fs [])
    (join [COMMA] (map csv_quote (f :: l)) ++ CR :: LF :: rest)
  = (rows <~ run false parse_reset rest; inr ((fs ++ f :: l) :: rows)).
Proof.
  induction l as [|f2 l IH]; intros f st mid fs rest Hst.
  - simpl join. apply field_then_crlf. destruct Hst as [?|[? [?|?]]]; auto.
  - cbn [map]. rewrite join_cons2. rewrite <- !app_assoc. cbn [app].
    rewrite field_then_comma by (destruct Hst as [?|[? _]]; auto).
    change (csv_quote f2 :: map csv_quote l) with (map csv_quote (f2 :: l)).
    rewrite IH by auto. by rewrite <- app_assoc.
Qed.

Lemma join_not_nil (x y : str) (l : list str) : join [COMMA] (x :: y :: l) ≠ [].
Proof. rewrite join_cons2. by destruct x. Qed.

(** One row as the writer writes it reads back as the texts of its
    values, and the reader goes on with what follows. *)
Lemma run_record (row : list pyval) (rest : str) :
  run false parse_reset (csv_record row ++ rest)
  = (rows <~ run false parse_reset rest; inr (map csv_text row :: rows)).
Proof.
  unfold csv_record, parse_reset.
  rewrite <- (map_map csv_text csv_quote).
  destruct row as [|v [|v2 l]].
  - cbn [map join]. rewrite bool_decide_eq_false_2 by (intros H; by apply H).
    cbn [andb]. simpl app. apply run_crlf_empty.
  - cbn [map join]. rewrite bool_decide_eq_true_2 by done. cbn [andb].
    case_bool_decide as Hq.
    + apply csv_quote_nil in Hq as ->. reflexivity.
    + rewrite <- app_assoc. cbn [app].
      apply (run_fields [] (csv_text v) START_RECORD false [] rest). auto.
  - rewrite (bool_decide_eq_false_2 (join _ _ = [])) by apply join_not_nil.
    rewrite andb_false_r. rewrite <- app_assoc. cbn [app].
    apply (run_fields (map csv_text (v2 :: l)) (csv_text v) START_RECORD
             false [] rest).
    right. split; [done|]. by left.
Qed.

(** Rows written one after the other read back as they were written. *)
Lemma run_records (rows : list (list pyval)) :
  run false parse_reset (concat (map csv_record rows))
  = inr (map (map csv_text) rows).
Proof.
  induction rows as [|row rows IH]; [done|].
  cbn [map concat]. by rewrite run_record, IH.
Qed.

Lemma csv_read_records (rows : list (list pyval)) :
  csv_read (concat (map csv_record rows)) = inr (map (map csv_text) rows).
Proof. rewrite csv_read_run. apply run_records. Qed.

(** ** Whole runs *)

Lemma export_text_read (regs : list RegistrationData) :
  csv_read (export_text regs)
  = inr (map cps HEADER_ROW :: map (fun e => map csv_text (registration_row e)) regs).
Proof.
  unfold export_text. rewrite csv_read_records. unfold export_rows.
  cbn [map]. rewrite !map_map. done.
Qed.

(** A run that ends normally: every message was skipped or collected, the
    notices were printed and the file holds the records. *)
Lemma main_returns env w w' :
  main env w = (w', inr tt) →
  ∃ args ids, parse_args env = inr args
    ∧ imap_search_all env = inr ids
    ∧ Forall (fun i => aborts (outcome_of env i) = false) ids
    ∧ stdout w' = stdout w ++ notices env ids
    ∧ files w' = <[EXPORT_FILE := export_text (entries env ids)]> (files w).
Proof.
  rewrite main_eq. destruct (parse_args env) as [e|args]; [done|].
  destruct (retrieve_registrations_from_server env args w)
    as [w1 [e|regs]] eqn:Hr; [done|].
  apply retrieve_returns in Hr as (ids & Hids & Hok & -> & Hout & Hfiles).
  rewrite write_registrations_eq. intros [= <-].
  exists args, ids. simpl. by rewrite Hfiles.
Qed.


Lemma notices_app env (l1 l2 : list N) :
  notices env (l1 ++ l2) = notices env l1 ++ notices env l2.
Proof. unfold notices. apply omap_app. Qed.

(** Where no turn aborts, each message gives a notice or a record. *)
Lemma notices_entries_length env (ids : list N) :
  Forall (fun i => aborts (outcome_of env i) = false) ids →
  (length (notices env ids) + length (entries env ids) = length ids)%nat.
Proof.
  induction 1 as [|idx ids Hidx Hok IH]; [done|].
  unfold notices, entries in *. csimpl.
  destruct (outcome_of env idx); csimpl in *; [lia|lia|done].
Qed.

(** A record of the loop is the record of a match in a message that passed
    the header check. *)
Lemma outcome_collect env idx entry :
  outcome_of env idx = Collect entry →
  ∃ msg m, fetch_message env idx = inr msg
    ∧ check_if_message_to_skip msg = false
    ∧ re_search EXTRACTION_REGEXP (msg_text msg) = Some m
    ∧ entry = entry_of_match m.
Proof.
  unfold outcome_of, message_outcome.
  destruct (fetch_message env idx) as [e|msg]; [done|].
  destruct (check_if_message_to_skip msg) eqn:Hc; [done|].
  destruct (re_search EXTRACTION_REGEXP (msg_text msg)) as [m|] eqn:Hs; [|done].
  rewrite init_groupdict. intros [= <-]. by exists msg, m.
Qed.


Lemma entries_elem env (ids : list N) entry :
  entry ∈ entries env ids →
  ∃ idx, idx ∈ ids ∧ outcome_of env idx = Collect entry.
Proof.
  unfold entries. rewrite list_elem_of_omap. intros (idx & Hin & Hentry).
  exists idx. split; [done|].
  destruct (outcome_of env idx); simpl in *; by simplify_eq.
Qed.

(** ** The header check *)









(** ** The skip notice *)






(** ** A body that the pattern does not match *)



(** ** No file before the retrieval is over *)

(** C7: when the retrieval ends with an exception, whatever raised it, main
    ends with the same exception in the same world, and the files are the
    files from before the run: the export file was neither created nor
    emptied. *)
Theorem C7_abort_leaves_the_files env args w w' e :
  parse_args env = inr args →
  retrieve_registrations_from_server env args w = (w', inl e) →
  main env w = (w', inl e) ∧ files w' = files w.
Proof.
  intros Ha Hr. split; [by rewrite main_eq, Ha, Hr|].
  pose proof (retrieve_files env args w) as Hf. by rewrite Hr in Hf.
Qed.

Lemma C7_witness :
  main garbled_env empty_world
    = ((retrieve_registrations_from_server garbled_env example_args empty_world).1,
       inl UnicodeDecodeError)
  ∧ files (retrieve_registrations_from_server garbled_env example_args empty_world).1
    = files empty_world.
Proof.
  apply (C7_abort_leaves_the_files garbled_env example_args empty_world);
    vm_compute; reflexivity.
Defined.

(** ** The fields of a record *)

Lemma elem_of_mandatory_id :
  ("eintrags_id", CDigit, 1%nat) ∈ mandatory EXTRACTION_REGEXP.
Proof. rewrite mandatory_extraction. apply list_elem_of_here. Qed.

Lemma elem_of_mandatory_count :
  ("anzahl_personen", CDigit, 1%nat) ∈ mandatory EXTRACTION_REGEXP.
Proof.
  rewrite mandatory_extraction. do 2 apply list_elem_of_further.
  apply list_elem_of_here.
Qed.

(** Every field of the record of a match is a string without a double
    quote. *)
Lemma match_fields_unquoted (text : str) (m : re_match) (v : pyval) :
  re_search EXTRACTION_REGEXP text = Some m →
  v ∈ registration_row (entry_of_match m) →
  ∃ s, v = PyStr s ∧ DQUOTE ∉ s.
Proof.
  intros Hs. rewrite entry_of_match_row.
  intros (n & -> & Hn)%list_elem_of_fmap.
  destruct (group_names_mandatory n Hn) as (cs & lo & Hin).
  destruct (search_groups text m n cs lo Hs Hin) as (s & _ & Hv & Hall & _).
  exists s. split; [done|]. intros Hq.
  rewrite Forall_forall in Hall. specialize (Hall DQUOTE).
  rewrite (group_sets_exclude_quote n cs lo Hin) in Hall.
  by specialize (Hall Hq).
Qed.

Lemma main_file env w w' :
  main env w = (w', inr tt) →
  ∃ ids, imap_search_all env = inr ids
    ∧ Forall (fun i => aborts (outcome_of env i) = false) ids
    ∧ stdout w' = stdout w ++ notices env ids
    ∧ files w' !! EXPORT_FILE = Some (export_text (entries env ids)).
Proof.
  intros (args & ids & _ & Hids & Hok & Hout & Hfs)%main_returns.
  exists ids. rewrite Hfs. by rewrite lookup_insert_eq.
Qed.

(** C9: the records in the export file of a finished run are records of
    matches: the sixteen fields of each, in the order of the columns, are
    the values of the sixteen named groups of a match of the pattern in a
    fetched message, as groupdict gives them, and the fields eintrags_id and
    anzahl_personen are strings of decimal digits only. *)
Theorem C9_output_fields_are_the_groups env w w' :
  main env w = (w', inr tt) →
  ∃ regs, files w' !! EXPORT_FILE = Some (export_text regs)
    ∧ ∀ entry, entry ∈ regs →
      ∃ idx msg m,
        fetch_message env idx = inr msg
        ∧ re_search EXTRACTION_REGEXP (msg_text msg) = Some m
        ∧ registration_row entry = map (group_value m) HEADER_ROW
        ∧ (∃ s, eintrags_id entry = PyStr s
                ∧ m_groups m !! "eintrags_id" = Some s
                ∧ Forall (fun c => is_decimal c = true) s)
        ∧ (∃ s, anzahl_personen entry = PyStr s
                ∧ m_groups m !! "anzahl_personen" = Some s
                ∧ Forall (fun c => is_decimal c = true) s).
Proof.
  intros (ids & Hids & Hok & Hout & Hfile)%main_file.
  exists (entries env ids). split; [done|].
  intros entry (idx & Hin & Ho)%entries_elem.
  apply outcome_collect in Ho as (msg & m & Hf & Hc & Hs & ->).
  exists idx, msg, m. split; [done|]. split; [done|].
  split; [apply entry_of_match_row|]. split.
  - destruct (search_groups _ _ _ _ _ Hs elem_of_mandatory_id)
      as (s & Hg & Hv & Hall & _). by exists s.
  - destruct (search_groups _ _ _ _ _ Hs elem_of_mandatory_count)
      as (s & Hg & Hv & Hall & _). by exists s.
Qed.

Lemma C9_witness :
  ∃ regs,
    files (main (mailbox_env [(1, stray_message); (2, example_message)])
             empty_world).1 !! EXPORT_FILE = Some (export_text regs)
    ∧ ∀ entry, entry ∈ regs →
      ∃ idx msg m,
        fetch_message (mailbox_env [(1, stray_message); (2, example_message)]) idx
          = inr msg
        ∧ re_search EXTRACTION_REGEXP (msg_text msg) = Some m
        ∧ registration_row entry = map (group_value m) HEADER_ROW
        ∧ (∃ s, eintrags_id entry = PyStr s
                ∧ m_groups m !! "eintrags_id" = Some s
                ∧ Forall (fun c => is_decimal c = true) s)
        ∧ (∃ s, anzahl_personen entry = PyStr s
                ∧ m_groups m !! "anzahl_personen" = Some s
                ∧ Forall (fun c => is_decimal c = true) s).
Proof.
  apply (C9_output_fields_are_the_groups
           (mailbox_env [(1, stray_message); (2, example_message)]) empty_world).
  vm_compute. reflexivity.
Defined.

(** C10: no field of a record in the export file of a finished run holds a
    double quote, and no field that a reader finds in the file does: every
    named group of the pattern is a run of characters of a set that leaves
    the double quote out. *)
Theorem C10_no_quote_in_any_field env w w' :
  main env w = (w', inr tt) →
  ∃ regs rows,
    files w' !! EXPORT_FILE = Some (export_text regs)
    ∧ (∀ entry v, entry ∈ regs → v ∈ registration_row entry →
         ∃ s, v = PyStr s ∧ DQUOTE ∉ s)
    ∧ csv_read (export_text regs) = inr rows
    ∧ (∀ row f, row ∈ rows → f ∈ row → DQUOTE ∉ f).
Proof.
  intros (ids & Hids & Hok & Hout & Hfile)%main_file.
  assert (Hfields : ∀ entry v, entry ∈ entries env ids →
            v ∈ registration_row entry → ∃ s, v = PyStr s ∧ DQUOTE ∉ s).
  { intros entry v (idx & Hin & Ho)%entries_elem Hv.
    apply outcome_collect in Ho as (msg & m & Hf & Hc & Hs & ->).
    by eapply match_fields_unquoted. }
  eexists _, _. split; [done|]. split; [done|].
  split; [apply export_text_read|].
  intros row f [->|Hrow]%elem_of_cons Hf.
  - revert f Hf. apply Forall_forall. compute_done.
  - apply list_elem_of_fmap in Hrow as (entry & -> & Hentry).
    apply list_elem_of_fmap in Hf as (v & -> & Hv).
    destruct (Hfields entry v Hentry Hv) as (s & -> & Hs). done.
Qed.

Lemma C10_witness :
  ∃ regs rows,
    files (main (mailbox_env [(1, stray_message); (2, example_message)])
             empty_world).1 !! EXPORT_FILE = Some (export_text regs)
    ∧ (∀ entry v, entry ∈ regs → v ∈ registration_row entry →
         ∃ s, v = PyStr s ∧ DQUOTE ∉ s)
    ∧ csv_read (export_text regs) = inr rows
    ∧ (∀ row f, row ∈ rows → f ∈ row → DQUOTE ∉ f).
Proof.
  apply (C10_no_quote_in_any_field
           (mailbox_env [(1, stray_message); (2, example_message)]) empty_world).
  vm_compute. reflexivity.
Defined.

(** ** Writing and reading back *)




(** ** Order and number of the rows *)

Lemma entries_collected env (ids : list N) :
  Forall2 (fun idx entry => outcome_of env idx = Collect entry)
    (List.filter (collected env) ids) (entries env ids).
Proof.
  induction ids as [|idx ids IH]; [constructor|].
  unfold entries, collected in *. csimpl.
  destruct (outcome_of env idx) eqn:Ho; csimpl; try done.
  by constructor.
Qed.

Lemma filter_sorted {A} (R : A → A → Prop) (f : A → bool) (l : list A) :
  StronglySorted R l → StronglySorted R (List.filter f l).
Proof.
  induction 1 as [|x l Hs IH Hx]; simpl; [constructor|].
  destruct (f x); [|done]. constructor; [done|].
  rewrite List.Forall_forall in *. intros y [Hy _]%filter_In. by apply Hx.
Qed.

(** C5: the data rows of the export file of a finished run are the rows of
    the collected messages in the order in which SEARCH ALL listed their
    numbers: row by row they belong to the numbers that remain when the
    skipped ones are left out, and where the server lists the numbers in
    ascending order the rows are in ascending order of their numbers. *)
Theorem C5_rows_in_message_order env w w' ids :
  main env w = (w', inr tt) →
  imap_search_all env = inr ids →
  ∃ text rows,
    files w' !! EXPORT_FILE = Some text
    ∧ csv_read text = inr (map cps HEADER_ROW :: rows)
    ∧ Forall2 (fun idx row => ∃ entry, outcome_of env idx = Collect entry
                 ∧ row = map csv_text (registration_row entry))
        (List.filter (collected env) ids) rows
    ∧ (StronglySorted N.lt ids →
       StronglySorted N.lt (List.filter (collected env) ids)).
Proof.
  intros (ids' & Hids' & Hok & Hout & Hfile)%main_file Hids.
  assert (ids' = ids) as -> by congruence.
  eexists _, _. split; [done|]. split; [apply export_text_read|].
  split; [|apply filter_sorted].
  apply Forall2_fmap_r. eapply Forall2_impl; [apply entries_collected|].
  intros idx entry Ho. by exists entry.
Qed.

Lemma C5_witness :
  ∃ text rows,
    files (main (mailbox_env example_box)
             empty_world).1 !! EXPORT_FILE = Some text
    ∧ csv_read text = inr (map cps HEADER_ROW :: rows)
    ∧ Forall2 (fun idx row => ∃ entry,
                 outcome_of (mailbox_env example_box)
                   idx = Collect entry
                 ∧ row = map csv_text (registration_row entry))
        (List.filter (collected (mailbox_env example_box))
           (map fst example_box)) rows
    ∧ (StronglySorted N.lt (map fst example_box) →
       StronglySorted N.lt
         (List.filter (collected (mailbox_env example_box))
            (map fst example_box))).
Proof.
  apply (C5_rows_in_message_order
           (mailbox_env example_box)
           empty_world);
    vm_compute; reflexivity.
Defined.

Lemma data_rows_export (w' : world) (regs : list RegistrationData) :
  files w' !! EXPORT_FILE = Some (export_text regs) →
  data_rows w' = length regs.
Proof.
  intros Hf. unfold data_rows. rewrite Hf, export_text_read.
  cbn [length]. rewrite length_map. lia.
Qed.

(** C4, as the program has it: in a run that ends normally, so where no
    step of the session and no message raised an exception, every message
    of the mailbox was either skipped or collected, and the number of
    notices printed plus the number of data rows in the export file is the
    number of messages. *)
Theorem C4_notices_plus_rows env w w' ids :
  main env w = (w', inr tt) →
  imap_search_all env = inr ids →
  ∃ printed,
    stdout w' = stdout w ++ printed
    ∧ (length printed + data_rows w' = length ids)%nat
    ∧ Forall (fun idx => (∃ n, outcome_of env idx = Skip n)
                         ∨ (∃ entry, outcome_of env idx = Collect entry)) ids.
Proof.
  intros (ids' & Hids' & Hok & Hout & Hfile)%main_file Hids.
  assert (ids' = ids) as -> by congruence.
  exists (notices env ids). split; [done|]. split.
  - rewrite (data_rows_export _ _ Hfile). by apply notices_entries_length.
  - eapply Forall_impl; [exact Hok|]. intros idx Hidx. simpl in Hidx.
    destruct (outcome_of env idx); [left|right|done]; by eexists.
Qed.

Lemma C4_witness :
  ∃ printed,
    stdout (main (mailbox_env example_box)
              empty_world).1 = stdout empty_world ++ printed
    ∧ (length printed
       + data_rows (main (mailbox_env example_box)
                      empty_world).1 = length (map fst example_box))%nat
    ∧ Forall (fun idx =>
        (∃ n, outcome_of (mailbox_env example_box) idx
              = Skip n)
        ∨ (∃ entry, outcome_of (mailbox_env example_box) idx
              = Collect entry)) (map fst example_box).
Proof.
  apply (C4_notices_plus_rows
           (mailbox_env example_box)
           empty_world);
    vm_compute; reflexivity.
Defined.

(** The claim C4 as it stands fails: the one message of this mailbox is not
    UTF-8, so no message reaches the pattern, the run ends with
    UnicodeDecodeError, nothing is printed and there is no file: the count
    is nought for a mailbox of one message. *)
Lemma C4_counterexample :
  imap_search_all garbled_env = inr [1]
  ∧ fetch_message garbled_env 1 = inl UnicodeDecodeError
  ∧ outcome_of garbled_env 1 ≠ Abort AttributeError
  ∧ (main garbled_env empty_world).2 = inl UnicodeDecodeError
  ∧ (length (stdout (main garbled_env empty_world).1)
     - length (stdout empty_world)
     + data_rows (main garbled_env empty_world).1)%nat ≠ 1%nat.
Proof.
  split; [done|]. split; [by vm_compute|]. split; [by vm_compute|].
  split; [by vm_compute|]. by vm_compute.
Qed.

(** ** A message that matches *)







(** * Further properties of the code *)

(** ** RegistrationData.__init__ *)

Lemma getitem_inr (data : gmap string pyval) (k : string) (v : pyval) :
  getitem data k = inr v ↔ data !! k = Some v.
Proof.
  unfold getitem. destruct (data !! k); split; congruence.
Qed.

Lemma getitem_inl (data : gmap string pyval) (k : string) (e : exn) :
  getitem data k = inl e ↔ data !! k = None ∧ e = KeyError.
Proof.
  unfold getitem. destruct (data !! k); split.
  - discriminate.
  - intros [? _]. discriminate.
  - intros [= <-]. done.
  - intros [_ ->]. done.
Qed.

(** The constructor returns a record exactly when the sixteen keys are all
    there, and the record's row lists their values in the order of the
    header row. *)
Lemma init_inr (data : gmap string pyval) (entry : RegistrationData) :
  RegistrationData_init data = inr entry
  ↔ map (fun k => data !! k) HEADER_ROW = map Some (registration_row entry).
Proof.
  unfold RegistrationData_init, HEADER_ROW, registration_row. cbn [map]. split.
  - intros H.
    repeat match type of H with
    | rbind (getitem data ?k) _ = _ =>
        let v := fresh "v" in let Hk := fresh "Hk" in
        destruct (getitem data k) as [?|v] eqn:Hk; [discriminate H|];
        apply getitem_inr in Hk; rewrite Hk; cbn [rbind] in H
    end.
    by simplify_eq.
  - intros H. destruct entry. cbn in H. simplify_eq.
    repeat match goal with
    | Hk : data !! ?k = Some ?v |- _ =>
        apply getitem_inr in Hk; rewrite Hk; clear Hk; cbn [rbind]
    end.
    reflexivity.
Qed.

Lemma init_all_present (data : gmap string pyval) :
  Forall (fun k => is_Some (data !! k)) HEADER_ROW →
  ∃ entry, RegistrationData_init data = inr entry.
Proof.
  intros H. unfold HEADER_ROW in H.
  repeat match type of H with
  | Forall _ (_ :: _) =>
      let Hk := fresh "Hk" in
      apply Forall_cons in H as [[? Hk] H]; apply getitem_inr in Hk
  end.
  unfold RegistrationData_init.
  repeat match goal with
  | Hk : getitem data _ = inr _ |- _ => rewrite Hk; clear Hk; cbn [rbind]
  end.
  by eexists.
Qed.

Lemma init_only_KeyError (data : gmap string pyval) (e : exn) :
  RegistrationData_init data = inl e → e = KeyError.
Proof.
  unfold RegistrationData_init. intros H.
  repeat match type of H with
  | rbind (getitem data ?k) _ = _ =>
      let Hk := fresh "Hk" in
      destruct (getitem data k) as [?|?] eqn:Hk;
        [apply getitem_inl in Hk as [_ ->]; by injection H|];
        cbn [rbind] in H
  end.
  discriminate H.
Qed.

(** X1: the constructor raises KeyError exactly when one of the sixteen
    keys is missing from the dictionary, and it raises nothing else. *)
Theorem X1_init_raises_KeyError_iff_a_key_is_missing (data : gmap string pyval) :
  (RegistrationData_init data = inl KeyError
   ↔ ∃ k, k ∈ HEADER_ROW ∧ data !! k = None)
  ∧ (∀ e, RegistrationData_init data = inl e → e = KeyError).
Proof.
  split; [|apply init_only_KeyError]. split.
  - intros Hinit.
    destruct (decide (Exists (fun k => data !! k = None) HEADER_ROW)) as [He|Hn].
    + apply Exists_exists in He. done.
    + apply not_Exists_Forall in Hn; [|intros k; apply _].
      destruct (init_all_present data) as [entry Hentry]; [|congruence].
      eapply Forall_impl; [exact Hn|]. intros k Hk. simpl in Hk.
      by destruct (data !! k); [eexists|].
  - intros (k & Hin & Hk).
    destruct (RegistrationData_init data) as [e|entry] eqn:Hinit.
    + by rewrite (init_only_KeyError data e Hinit).
    + apply init_inr in Hinit.
      apply list_elem_of_lookup in Hin as [i Hi].
      apply (f_equal (fun l => l !! i)) in Hinit.
      rewrite !list_lookup_fmap, Hi in Hinit. simpl in Hinit.
      rewrite Hk in Hinit. by destruct (registration_row entry !! i).
Qed.



(** ** The commands of a session *)

Lemma put_cmd_trace (c : imap_cmd) (w : world) :
  imap_trace (put_cmd c w) = imap_trace w ++ [c].
Proof. done. Qed.

(** X3: a retrieval that returns has sent, after what was sent before it,
    the connection, the login, the read-only selection of the mailbox
    Registrations, the search, one fetch for each message number in the
    order of the search result, the close and the logout, and nothing
    else. *)
Theorem X3_commands_of_a_finished_retrieval env args w w' regs :
  retrieve_registrations_from_server env args w = (w', inr regs) →
  ∃ ids, imap_search_all env = inr ids
    ∧ imap_trace w' = imap_trace w ++ session_opening env args
                      ++ map Fetch ids ++ [Close; Logout].
Proof.
  rewrite retrieve_eq. cbv zeta.
  destruct (imap_connect env _ _); [done|].
  destruct (imap_login env _ _); [done|].
  destruct (imap_select env _ _); [done|].
  destruct (imap_search_all env) as [e|ids]; [done|].
  destruct (for_each ids _ _ _) as [w5 [e|regs5]] eqn:Hloop; [done|].
  apply loop_returns in Hloop as (Hok & -> & ->).
  destruct (imap_close env); [done|]. intros [= <- <-].
  exists ids. split; [done|]. unfold session_opening.
  rewrite !put_cmd_trace. cbn [loop_world imap_trace].
  rewrite !put_cmd_trace. by rewrite <- !app_assoc.
Qed.

Lemma X3_witness :
  ∃ ids, imap_search_all (mailbox_env example_box) = inr ids
    ∧ imap_trace (retrieve_registrations_from_server (mailbox_env example_box)
                    example_args empty_world).1
      = imap_trace empty_world ++ session_opening (mailbox_env example_box) example_args
        ++ map Fetch ids ++ [Close; Logout].
Proof.
  eapply (X3_commands_of_a_finished_retrieval (mailbox_env example_box)
            example_args empty_world).
  vm_compute. reflexivity.
Defined.

Lemma not_logout_fetch (l : list N) : Logout ∉ map Fetch l.
Proof. intros (idx & Heq & _)%list_elem_of_fmap. discriminate. Qed.

(** Whatever way the loop ends, it has sent fetches and nothing else. *)
Lemma loop_trace env ids regs w :
  ∃ fetched,
    imap_trace (for_each ids (process_message env) regs w).1
    = imap_trace w ++ map Fetch fetched.
Proof.
  destruct (first_abort env ids)
    as [Hok|(pre & idx & post & e & -> & Hpre & Hidx)].
  - exists ids. by rewrite loop_ok.
  - exists (pre ++ [idx]). rewrite (loop_abort _ _ _ _ e) by done.
    cbn [fst]. rewrite put_cmd_trace. cbn [loop_world imap_trace].
    by rewrite map_app, app_assoc.
Qed.

(** X4: a session is logged out exactly once, with its last command, however
    the retrieval ends, provided the connection was made; where the
    connection fails, the retrieval ends with that exception and nothing
    but the attempt was sent. *)
Theorem X4_logout_ends_every_session env args w :
  match imap_connect env (server_url args) (port args) with
  | Some e =>
      retrieve_registrations_from_server env args w
      = (put_cmd (Connect (server_url args) (port args)) w, inl e)
  | None =>
      ∃ cmds,
        imap_trace (retrieve_registrations_from_server env args w).1
        = imap_trace w ++ [Connect (server_url args) (port args)] ++ cmds ++ [Logout]
        ∧ Logout ∉ cmds
  end.
Proof.
  rewrite retrieve_eq. cbv zeta.
  destruct (imap_connect env _ _); [done|].
  set (login := Login _ _). set (connect := Connect _ _).
  destruct (imap_login env _ _).
  { exists [login]. cbn [fst]. rewrite !put_cmd_trace, <- !app_assoc.
    split; [done|]. by intros [=]%list_elem_of_singleton. }
  destruct (imap_select env _ _).
  { exists [login; Select MAILBOX_FOR_DOWNLOAD true]. cbn [fst].
    rewrite !put_cmd_trace, <- !app_assoc. split; [done|].
    rewrite !elem_of_cons, elem_of_nil. by intros [|[|]]. }
  destruct (imap_search_all env) as [e|ids].
  { exists [login; Select MAILBOX_FOR_DOWNLOAD true; Search]. cbn [fst].
    rewrite !put_cmd_trace, <- !app_assoc. split; [done|].
    rewrite !elem_of_cons, elem_of_nil. by intros [|[|[|]]]. }
  match goal with
  | |- context [for_each ids ?f ?r ?w0] =>
      destruct (loop_trace env ids r w0) as [fetched Hfetched];
      destruct (for_each ids f r w0) as [w5 [e|regs]]
  end; cbn [fst] in Hfetched.
  - exists ([login; Select MAILBOX_FOR_DOWNLOAD true; Search] ++ map Fetch fetched).
    cbn [fst]. rewrite put_cmd_trace, Hfetched, !put_cmd_trace, <- !app_assoc.
    split; [done|]. rewrite elem_of_app, !elem_of_cons, elem_of_nil.
    intros [[|[|[|]]]|Hin]; try done. by apply not_logout_fetch in Hin.
  - exists ([login; Select MAILBOX_FOR_DOWNLOAD true; Search]
            ++ map Fetch fetched ++ [Close]).
    assert (Hno : Logout ∉ [login; Select MAILBOX_FOR_DOWNLOAD true; Search]
                           ++ map Fetch fetched ++ [Close]).
    { rewrite !elem_of_app, !elem_of_cons, elem_of_nil.
      intros [[|[|[|]]]|[Hin|[|]]]; try done. by apply not_logout_fetch in Hin. }
    destruct (imap_close env); cbn [fst];
      rewrite !put_cmd_trace, Hfetched, !put_cmd_trace, <- !app_assoc; done.
Qed.



(** ** Writing the export file *)


(** ** Runs that end normally *)




Lemma header_line_text :
  csv_record (map (fun f => PyStr (cps f)) HEADER_ROW) = HEADER_LINE.
Proof. by vm_compute. Qed.



Lemma outcome_skip_inv env idx n :
  outcome_of env idx = Skip n →
  ∃ msg, fetch_message env idx = inr msg
    ∧ check_if_message_to_skip msg = true
    ∧ n = skip_notice msg.
Proof.
  unfold outcome_of, message_outcome.
  destruct (fetch_message env idx) as [e|msg]; [done|].
  destruct (check_if_message_to_skip msg) eqn:Hc.
  - intros [= <-]. by exists msg.
  - destruct (re_search EXTRACTION_REGEXP (msg_text msg)) as [m|]; [|done].
    by destruct (RegistrationData_init (groupdict EXTRACTION_REGEXP m)).
Qed.

Lemma notices_skipped env (ids : list N) :
  Forall2 (fun idx line => outcome_of env idx = Skip line)
    (List.filter (skipped env) ids) (notices env ids).
Proof.
  induction ids as [|idx ids IH]; [constructor|].
  unfold notices, skipped in *. csimpl.
  destruct (outcome_of env idx) eqn:Ho; csimpl; try done.
  by constructor.
Qed.

(** X9: what a run that ends normally has printed is the notices of the
    skipped messages and nothing else, one line for each, in the order in
    which the search listed the messages. *)
Theorem X9_notices_in_message_order env w w' ids :
  main env w = (w', inr tt) →
  imap_search_all env = inr ids →
  ∃ printed,
    stdout w' = stdout w ++ printed
    ∧ Forall2 (fun idx line => ∃ msg, fetch_message env idx = inr msg
                 ∧ check_if_message_to_skip msg = true
                 ∧ line = skip_notice msg)
        (List.filter (skipped env) ids) printed.
Proof.
  intros (ids' & Hids' & Hok & Hout & Hfile)%main_file Hids.
  assert (ids' = ids) as -> by congruence.
  exists (notices env ids). split; [done|].
  eapply Forall2_impl; [apply notices_skipped|].
  intros idx line Ho. by apply outcome_skip_inv.
Qed.

Lemma X9_witness :
  ∃ printed,
    stdout (main (mailbox_env example_box) empty_world).1
    = stdout empty_world ++ printed
    ∧ Forall2 (fun idx line => ∃ msg,
                 fetch_message (mailbox_env example_box) idx = inr msg
                 ∧ check_if_message_to_skip msg = true
                 ∧ line = skip_notice msg)
        (List.filter (skipped (mailbox_env example_box)) (map fst example_box))
        printed.
Proof.
  apply (X9_notices_in_message_order (mailbox_env example_box) empty_world);
    vm_compute; reflexivity.
Defined.

(** ** What a run leaves alone *)

(** X10: a run, however it ends, changes no file but the export file, and
    only adds to what was printed and to what was sent to the server. *)
Theorem X10_run_touches_only_the_export_file env w :
  (∀ other, other ≠ EXPORT_FILE →
     files (main env w).1 !! other = files w !! other)
  ∧ stdout w `prefix_of` stdout (main env w).1
  ∧ imap_trace w `prefix_of` imap_trace (main env w).1.
Proof.
  rewrite main_eq. destruct (parse_args env) as [e|args]; [done|].
  assert (Hr : files (retrieve_registrations_from_server env args w).1 = files w
               ∧ stdout w `prefix_of`
                   stdout (retrieve_registrations_from_server env args w).1
               ∧ imap_trace w `prefix_of`
                   imap_trace (retrieve_registrations_from_server env args w).1).
  { split; [apply retrieve_files|].
    rewrite retrieve_eq. cbv zeta.
    destruct (imap_connect env _ _);
      [split; [done|by apply prefix_app_r]|].
    destruct (imap_login env _ _);
      [split; [done|by do 3 apply prefix_app_r]|].
    destruct (imap_select env _ _);
      [split; [done|by do 4 apply prefix_app_r]|].
    destruct (imap_search_all env) as [e|ids];
      [split; [done|by do 5 apply prefix_app_r]|].
    match goal with
    | |- context [for_each ids ?f ?r ?w0] =>
        assert (Hloop : stdout w `prefix_of` stdout (for_each ids f r w0).1
                        ∧ imap_trace w0 `prefix_of`
                            imap_trace (for_each ids f r w0).1);
        [|destruct (for_each ids f r w0) as [w5 [e|regs]]]
    end.
    { destruct (first_abort env ids)
        as [Hok|(pre & idx & post & e & -> & Hpre & Hidx)].
      - rewrite loop_ok by done. cbn. split; by apply prefix_app_r.
      - rewrite (loop_abort _ _ _ _ e) by done. cbn.
        split; [by apply prefix_app_r|by do 2 apply prefix_app_r]. }
    - cbn in *. destruct Hloop as [Hout Htrace]. split; [done|].
      apply prefix_app_r. etrans; [|exact Htrace]. by do 4 apply prefix_app_r.
    - cbn in Hloop. destruct Hloop as [Hout Htrace].
      assert (Ht : imap_trace w `prefix_of` imap_trace w5)
        by (etrans; [|exact Htrace]; by do 4 apply prefix_app_r).
      destruct (imap_close env); cbn; (split; [done|by do 2 apply prefix_app_r]). }
  destruct (retrieve_registrations_from_server env args w) as [w1 [e|regs]];
    cbn [fst] in *; destruct Hr as (Hf & Hout & Htrace).
  - split; [intros; by rewrite Hf|done].
  - rewrite write_registrations_eq. cbn. split; [|done].
    intros other Hother. by rewrite lookup_insert_ne, Hf.
Qed.

(** ** What the pattern asks of a data line *)

Lemma mandatory_nonempty (text : str) (m : re_match) (n : string) (cs : cset) :
  re_search EXTRACTION_REGEXP text = Some m →
  (n, cs, 1%nat) ∈ mandatory EXTRACTION_REGEXP →
  ∃ s, group_value m n = PyStr s ∧ s ≠ [].
Proof.
  intros Hs Hin.
  destruct (search_groups text m n cs 1%nat Hs Hin) as (s & _ & Hv & _ & Hlen).
  exists s. split; [done|]. intros ->. simpl in Hlen. lia.
Qed.

(** X11: in every record of the export file of a finished run the fields
    eintrags_id, key, anzahl_personen, name, vorname and mail are strings
    that are not empty: a data line where one of them is empty is not
    matched. *)
Theorem X11_required_fields_are_not_empty env w w' :
  main env w = (w', inr tt) →
  ∃ regs, files w' !! EXPORT_FILE = Some (export_text regs)
    ∧ ∀ entry, entry ∈ regs →
        (∃ s, eintrags_id entry = PyStr s ∧ s ≠ [])
        ∧ (∃ s, key entry = PyStr s ∧ s ≠ [])
        ∧ (∃ s, anzahl_personen entry = PyStr s ∧ s ≠ [])
        ∧ (∃ s, name entry = PyStr s ∧ s ≠ [])
        ∧ (∃ s, vorname entry = PyStr s ∧ s ≠ [])
        ∧ (∃ s, mail entry = PyStr s ∧ s ≠ []).
Proof.
  intros (ids & Hids & Hok & Hout & Hfile)%main_file.
  exists (entries env ids). split; [done|].
  intros entry (idx & Hin & Ho)%entries_elem.
  apply outcome_collect in Ho as (msg & m & Hf & Hc & Hs & ->).
  cbn [entry_of_match eintrags_id key anzahl_personen name vorname mail].
  repeat split; eapply (mandatory_nonempty _ _ _ _ Hs);
    rewrite mandatory_extraction;
    repeat first [apply list_elem_of_here|apply list_elem_of_further].
Qed.

Lemma X11_witness :
  ∃ regs,
    files (main (mailbox_env example_box) empty_world).1 !! EXPORT_FILE
    = Some (export_text regs)
    ∧ ∀ entry, entry ∈ regs →
        (∃ s, eintrags_id entry = PyStr s ∧ s ≠ [])
        ∧ (∃ s, key entry = PyStr s ∧ s ≠ [])
        ∧ (∃ s, anzahl_personen entry = PyStr s ∧ s ≠ [])
        ∧ (∃ s, name entry = PyStr s ∧ s ≠ [])
        ∧ (∃ s, vorname entry = PyStr s ∧ s ≠ [])
        ∧ (∃ s, mail entry = PyStr s ∧ s ≠ []).
Proof.
  apply (X11_required_fields_are_not_empty (mailbox_env example_box) empty_world).
  vm_compute. reflexivity.
Defined.

(** ** The matcher on a text the pattern describes *)

Lemma leads_lit_eq (l input rest : str) (g : captures) :
  strip_prefix l input = Some rest → leads (RLit l) input rest g g.
Proof. intros Hl R k x Hk. simpl. by rewrite Hl. Qed.

Lemma leads_set (cs : cset) (c : char) (rest : str) (g : captures) :
  cset_mem cs c = true → leads (RSet cs) (c :: rest) rest g g.
Proof. intros Hc R k x Hk. simpl. by rewrite Hc. Qed.

Lemma leads_seq (r1 r2 : regex) (input mid rest : str) (g g1 g2 : captures) :
  leads r1 input mid g g1 → leads r2 mid rest g1 g2 →
  leads (RSeq r1 r2) input rest g g2.
Proof. intros H1 H2 R k x Hk. simpl. apply H1. by apply H2. Qed.

Lemma leads_group (r : regex) (input rest : str) (g g' : captures) :
  leads r input rest g g' → leads (RGroup r) input rest g g'.
Proof. intros H R k x Hk. simpl. by apply H. Qed.

Lemma leads_opt_taken (r : regex) (input rest : str) (g g' : captures) :
  leads r input rest g g' → leads (ROpt r) input rest g g'.
Proof. intros H R k x Hk. simpl. by rewrite (H R k x Hk). Qed.

Lemma leads_opt_skipped (r : regex) (input : str) (g : captures) :
  (∀ (R : Type) (k : str → captures → option R), rmatch r input g k = None) →
  leads (ROpt r) input input g g.
Proof. intros H R k x Hk. simpl. by rewrite H. Qed.

Lemma rep_greedy {R} (cs : cset) (lo : nat) (f : str) : ∀ (n : nat) (s : str)
    (k : str → option R) (x : R),
  Forall (fun c => cset_mem cs c = true) f →
  (∀ c s', s = c :: s' → cset_mem cs c = false) →
  (lo ≤ n + length f)%nat →
  k s = Some x →
  rep cs lo n (f ++ s) k = Some x.
Proof.
  induction f as [|c f IH]; intros n s k x Hf Hs Hlo Hk.
  - simpl in Hlo. assert (Hle : (lo <=? n)%nat = true) by (apply Nat.leb_le; lia).
    destruct s as [|c s']; simpl; [by rewrite Hle|].
    by rewrite (Hs c s' eq_refl), Hle.
  - apply Forall_cons in Hf as [Hc Hf]. simpl.
    rewrite Hc. rewrite (IH (S n) s k x); [done|done|done| |done].
    simpl in Hlo. lia.
Qed.

Lemma leads_named_rep (n : string) (cs : cset) (lo : nat) (f rest : str)
    (g : captures) :
  Forall (fun c => cset_mem cs c = true) f →
  (lo ≤ length f)%nat →
  (∀ c s', rest = c :: s' → cset_mem cs c = false) →
  leads (RNamed n (RRep cs lo)) (f ++ rest) rest g (<[n := f]> g).
Proof.
  intros Hf Hlo Hs R k x Hk. simpl.
  apply rep_greedy; [done|done|simpl; lia|]. by rewrite consumed_app.
Qed.

Ltac derive_leads :=
  lazymatch goal with
  | |- leads (RSeq _ _) _ _ _ _ => eapply leads_seq; [derive_leads|derive_leads]
  | |- leads (RLit _) _ _ _ _ => apply leads_lit_eq; reflexivity
  | |- leads (RSet _) _ _ _ _ => apply leads_set; assumption
  | |- leads (RGroup _) _ _ _ _ => apply leads_group; derive_leads
  | |- leads (ROpt _) _ _ _ _ =>
      first [apply leads_opt_taken; derive_leads
            |apply leads_opt_skipped; intros; reflexivity]
  | |- leads (RNamed _ (RRep _ _)) _ _ _ _ =>
      apply leads_named_rep;
        [assumption|assumption|intros ? ? [= <- _]; reflexivity]
  end.

Lemma values_ok_inv (values : list str) :
  values_ok values →
  ∃ f1 f2 f3 f4 f5 f6 f7 f8 f9 f10 f11 f12 f13 f14 f15 f16,
    values = [f1; f2; f3; f4; f5; f6; f7; f8; f9; f10; f11; f12; f13; f14; f15; f16]
    ∧ Forall2 field_ok (mandatory EXTRACTION_REGEXP)
        [f1; f2; f3; f4; f5; f6; f7; f8; f9; f10; f11; f12; f13; f14; f15; f16].
Proof.
  unfold values_ok. rewrite mandatory_extraction. intros H.
  repeat (destruct values as [|? values]; [by inversion H|];
          let Hf := fresh "Hf" in
          apply Forall2_cons in H as [Hf H]).
  destruct values; [|by inversion H].
  do 16 eexists. split; [done|].
  repeat (constructor; [done|]). constructor.
Qed.

Lemma block_leads (d1 d2 d3 d4 d5 : char) (encoding : bool)
    (values : list str) (after : str) :
  is_decimal d1 = true → is_decimal d2 = true → is_decimal d3 = true →
  is_decimal d4 = true → is_decimal d5 = true →
  values_ok values →
  leads EXTRACTION_REGEXP
    (registration_block d1 d2 d3 d4 d5 encoding values ++ after) after
    ∅ (groups_of values).
Proof.
  intros H1 H2 H3 H4 H5
    (f1 & f2 & f3 & f4 & f5 & f6 & f7 & f8 & f9 & f10 & f11 & f12 & f13
     & f14 & f15 & f16 & -> & Hv)%values_ok_inv.
  repeat (apply Forall2_cons in Hv as [[? ?] Hv]). clear Hv.
  cbn [fst snd] in *.
  change (is_decimal d1) with (cset_mem CDigit d1) in H1.
  change (is_decimal d2) with (cset_mem CDigit d2) in H2.
  change (is_decimal d3) with (cset_mem CDigit d3) in H3.
  change (is_decimal d4) with (cset_mem CDigit d4) in H4.
  change (is_decimal d5) with (cset_mem CDigit d5) in H5.
  unfold registration_block, preamble, data_line.
  cbn [map join].
  cbv [EXTRACTION_REGEXP rconcat foldr lit digit field].
  destruct encoding; rewrite <- !app_assoc;
    lazymatch goal with
    | |- leads ?r ?t _ _ _ =>
        let t1 := eval lazy -[app] in t in
        let t2 := eval cbn [app] in t1 in
        change t with t2
    end.
  all: derive_leads.
Qed.

Lemma block_match_at (pos : nat) (d1 d2 d3 d4 d5 : char) (encoding : bool)
    (values : list str) (after : str) :
  is_decimal d1 = true → is_decimal d2 = true → is_decimal d3 = true →
  is_decimal d4 = true → is_decimal d5 = true →
  values_ok values →
  match_at EXTRACTION_REGEXP pos
    (registration_block d1 d2 d3 d4 d5 encoding values ++ after)
  = Some {| m_start := pos;
            m_end := (pos + length (registration_block d1 d2 d3 d4 d5 encoding values))%nat;
            m_groups := groups_of values |}.
Proof.
  intros H1 H2 H3 H4 H5 Hv. unfold match_at.
  apply (block_leads d1 d2 d3 d4 d5 encoding values after H1 H2 H3 H4 H5 Hv).
  rewrite length_app. do 3 f_equal. lia.
Qed.

Lemma extraction_head :
  ∃ r, EXTRACTION_REGEXP = RSeq (RLit MAILER_SIGNATURE) r.
Proof. eexists. reflexivity. Qed.

(** Where the text does not go on with the first literal of the pattern,
    the pattern does not match. *)
Lemma no_match_without_signature (pos : nat) (s : str) :
  strip_prefix MAILER_SIGNATURE s = None →
  match_at EXTRACTION_REGEXP pos s = None.
Proof.
  intros Hs. destruct extraction_head as [r ->].
  unfold match_at. cbn [rmatch]. by rewrite Hs.
Qed.

(** The search passes over the positions at which the first literal of
    the pattern does not occur. *)
Lemma search_skips (before s : str) : ∀ pos,
  starts_before (length before) MAILER_SIGNATURE (before ++ s) = false →
  search_from EXTRACTION_REGEXP pos (before ++ s)
  = search_from EXTRACTION_REGEXP (pos + length before) s.
Proof.
  induction before as [|c before IH]; intros pos.
  - intros _. simpl. by rewrite Nat.add_0_r.
  - cbn [length starts_before app].
    destruct (strip_prefix MAILER_SIGNATURE (c :: before ++ s)) eqn:Hp; [done|].
    intros Hb. cbn [search_from].
    rewrite (no_match_without_signature _ _ Hp), (IH (S pos) Hb).
    f_equal. lia.
Qed.

Lemma search_from_match (r : regex) (pos : nat) (s : str) (m : re_match) :
  match_at r pos s = Some m → search_from r pos s = Some m.
Proof. intros Hm. destruct s; simpl; by rewrite Hm. Qed.

Lemma search_finds_later (r : regex) (before s : str) : ∀ pos,
  is_Some (match_at r (pos + length before) s) →
  is_Some (search_from r pos (before ++ s)).
Proof.
  induction before as [|c before IH]; intros pos; simpl.
  - rewrite Nat.add_0_r. intros [m Hm]. exists m. by apply search_from_match.
  - intros Hm. destruct (match_at r pos (c :: before ++ s)); [done|].
    apply IH. by replace (S pos + length before)%nat
      with (pos + S (length before))%nat by lia.
Qed.

Lemma groups_of_row (m : re_match) (values : list str) :
  length values = 16%nat → m_groups m = groups_of values →
  map (group_value m) HEADER_ROW = map PyStr values.
Proof.
  intros Hlen Hg. unfold group_value. rewrite Hg. clear Hg.
  do 16 (destruct values as [|? values]; [done|]).
  destruct values; [|done]. reflexivity.
Qed.

Lemma values_ok_length (values : list str) :
  values_ok values → length values = 16%nat.
Proof. intros Hv. apply Forall2_length in Hv. by rewrite <- Hv. Qed.

Lemma search_first_block (before after : str)
    (d1 d2 d3 d4 d5 : char) (encoding : bool) (values : list str) :
  is_decimal d1 = true → is_decimal d2 = true → is_decimal d3 = true →
  is_decimal d4 = true → is_decimal d5 = true →
  values_ok values →
  starts_before (length before) MAILER_SIGNATURE
    (before ++ registration_block d1 d2 d3 d4 d5 encoding values ++ after) = false →
  re_search EXTRACTION_REGEXP
    (before ++ registration_block d1 d2 d3 d4 d5 encoding values ++ after)
  = Some {| m_start := length before;
            m_end := (length before
                      + length (registration_block d1 d2 d3 d4 d5 encoding values))%nat;
            m_groups := groups_of values |}.
Proof.
  intros H1 H2 H3 H4 H5 Hv Hb.
  unfold re_search. rewrite search_skips by done.
  apply search_from_match. by apply block_match_at.
Qed.

Lemma search_some_block (before after : str)
    (d1 d2 d3 d4 d5 : char) (encoding : bool) (values : list str) :
  is_decimal d1 = true → is_decimal d2 = true → is_decimal d3 = true →
  is_decimal d4 = true → is_decimal d5 = true →
  values_ok values →
  is_Some (re_search EXTRACTION_REGEXP
    (before ++ registration_block d1 d2 d3 d4 d5 encoding values ++ after)).
Proof.
  intros H1 H2 H3 H4 H5 Hv. apply search_finds_later.
  by rewrite block_match_at.
Qed.


(** X12: where a text holds a block of the form the pattern describes and
    the mailer line of the block is the first in the text, the search
    matches that block from its first to its last character, and the
    named groups are the sixteen values of the data line. *)
Theorem X12_search_matches_the_first_block (before after : str)
    (d1 d2 d3 d4 d5 : char) (encoding : bool) (values : list str) :
  let block := registration_block d1 d2 d3 d4 d5 encoding values in
  is_decimal d1 = true → is_decimal d2 = true → is_decimal d3 = true →
  is_decimal d4 = true → is_decimal d5 = true →
  values_ok values →
  starts_before (length before) MAILER_SIGNATURE (before ++ block ++ after) = false →
  ∃ m, re_search EXTRACTION_REGEXP (before ++ block ++ after) = Some m
    ∧ m_start m = length before
    ∧ m_end m = (length before + length block)%nat
    ∧ m_groups m = groups_of values
    ∧ map (group_value m) HEADER_ROW = map PyStr values.
Proof.
  intros block H1 H2 H3 H4 H5 Hv Hb. eexists. split.
  - by apply search_first_block.
  - repeat split. apply groups_of_row; [by apply values_ok_length|done].
Qed.

Lemma example_values_ok : values_ok (map cps example_values).
Proof.
  unfold values_ok. rewrite mandatory_extraction.
  repeat (constructor; [split; [repeat constructor|simpl; lia]|]). constructor.
Qed.

Lemma X12_witness :
  ∃ m, re_search EXTRACTION_REGEXP (msg_text example_message) = Some m
    ∧ m_start m = length example_before
    ∧ m_end m = (length example_before
                 + length (registration_block 51 50 49 49 48 true (map cps example_values)))%nat
    ∧ m_groups m = groups_of (map cps example_values)
    ∧ map (group_value m) HEADER_ROW = map PyStr (map cps example_values).
Proof.
  apply (X12_search_matches_the_first_block example_before [LF] 51 50 49 49 48 true
           (map cps example_values));
    [reflexivity|reflexivity|reflexivity|reflexivity|reflexivity
    |apply example_values_ok|vm_compute; reflexivity].
Defined.





(** ** What a match looks like *)

Lemma sem_lit_inv (l t : str) (g g' : captures) :
  sem (RLit l) t g g' → t = l ∧ g' = g.
Proof. by inversion 1. Qed.

Lemma sem_set_inv (cs : cset) (t : str) (g g' : captures) :
  sem (RSet cs) t g g' → ∃ c, t = [c] ∧ cset_mem cs c = true ∧ g' = g.
Proof. inversion 1; subst. by eexists. Qed.

Lemma sem_seq_inv (r1 r2 : regex) (t : str) (g g'' : captures) :
  sem (RSeq r1 r2) t g g'' →
  ∃ t1 t2 g', t = t1 ++ t2 ∧ sem r1 t1 g g' ∧ sem r2 t2 g' g''.
Proof. inversion 1; subst. by eexists _, _, _. Qed.

Lemma sem_opt_inv (r : regex) (t : str) (g g' : captures) :
  sem (ROpt r) t g g' → sem r t g g' ∨ (t = [] ∧ g' = g).
Proof. inversion 1; subst; auto. Qed.

Lemma sem_group_inv (r : regex) (t : str) (g g' : captures) :
  sem (RGroup r) t g g' → sem r t g g'.
Proof. by inversion 1. Qed.

Lemma sem_named_rep_inv n (cs : cset) (lo : nat) (t : str) (g g' : captures) :
  sem (RNamed n (RRep cs lo)) t g g' →
  Forall (fun c => cset_mem cs c = true) t ∧ (lo ≤ length t)%nat
  ∧ g' = <[n := t]> g.
Proof.
  inversion 1 as [| | | | | | |? ? ? ? ? Hr]; subst. by inversion Hr; subst.
Qed.

Ltac invert_sem :=
  repeat match goal with
  | H : sem (RSeq _ _) _ _ _ |- _ =>
      apply sem_seq_inv in H as (? & ? & ? & -> & ? & H)
  | H : sem (RLit _) _ _ _ |- _ => apply sem_lit_inv in H as [-> ->]
  | H : sem (RSet _) _ _ _ |- _ => apply sem_set_inv in H as (? & -> & ? & ->)
  | H : sem (RGroup _) _ _ _ |- _ => apply sem_group_inv in H
  | H : sem (RNamed _ (RRep _ _)) _ _ _ |- _ =>
      apply sem_named_rep_inv in H as (? & ? & ->)
  end.

(** The texts the pattern matches are the blocks, and the groups of a
    match are the values of the data line. *)
Lemma sem_extraction (t : str) (g : captures) :
  sem EXTRACTION_REGEXP t ∅ g →
  ∃ d1 d2 d3 d4 d5 encoding values,
    t = registration_block d1 d2 d3 d4 d5 encoding values
    ∧ is_decimal d1 = true ∧ is_decimal d2 = true ∧ is_decimal d3 = true
    ∧ is_decimal d4 = true ∧ is_decimal d5 = true
    ∧ values_ok values ∧ g = groups_of values.
Proof.
  cbv [EXTRACTION_REGEXP rconcat foldr lit digit field].
  intros H. invert_sem.
  match goal with
  | H : sem (ROpt _) ?t _ ?g |- _ =>
      assert (Hopt : (t = [LF] ++ cps "Content-Transfer-Encoding: 8bit"
                      ∧ g = ∅) ∨ (t = [] ∧ g = ∅));
        [apply sem_opt_inv in H as [H|[-> ->]];
           [left; invert_sem; by rewrite app_nil_r|by right]|clear H]
  end.
  match goal with
  | |- context [<["teilnehmer_7" := ?f16]> (<["teilnehmer_6" := ?f15]>
         (<["teilnehmer_5" := ?f14]> (<["teilnehmer_4" := ?f13]>
         (<["teilnehmer_3" := ?f12]> (<["teilnehmer_2" := ?f11]>
         (<["club" := ?f10]> (<["sonstiges" := ?f9]> (<["telefon" := ?f8]>
         (<["mail" := ?f7]> (<["vorname" := ?f6]> (<["name" := ?f5]>
         (<["zahlungsstatus" := ?f4]> (<["anzahl_personen" := ?f3]>
         (<["key" := ?f2]> (<["eintrags_id" := ?f1]> _)))))))))))))))] =>
      match goal with
      | |- context [cps "X-Mailer: WPMailSMTP/Mailer/smtp " ++ [?d1] ++ _
                    ++ [?d2] ++ _ ++ [?d3] ++ _ ++ _ ++ [?d4] ++ _ ++ [?d5] ++ _] =>
          destruct Hopt as [[-> ->]|[-> ->]];
            [exists d1, d2, d3, d4, d5, true | exists d1, d2, d3, d4, d5, false];
            exists [f1; f2; f3; f4; f5; f6; f7; f8; f9; f10; f11; f12; f13; f14;
                    f15; f16]
      end
  end.
  all: split; [|repeat (split; [assumption|]); split; [|reflexivity]].
  all: try (unfold values_ok; rewrite mandatory_extraction;
            repeat (constructor; [by split|]); constructor).
  all: unfold registration_block, preamble, data_line; cbn [map join];
    rewrite <- ?app_assoc;
    match goal with
    | |- ?l = ?r =>
        let l1 := eval lazy -[app] in l in
        let l2 := eval cbn [app] in l1 in
        let r1 := eval lazy -[app] in r in
        let r2 := eval cbn [app] in r1 in
        change (l2 = r2)
    end; reflexivity.
Qed.

Lemma match_at_sound (r : regex) (pos : nat) (s : str) (m : re_match) :
  match_at r pos s = Some m →
  ∃ t after, s = t ++ after ∧ sem r t ∅ (m_groups m)
    ∧ m_start m = pos ∧ m_end m = (pos + length t)%nat.
Proof.
  unfold match_at. intros Hm.
  apply rmatch_sound in Hm as (t & s' & g' & -> & Hs & [= <-]).
  exists t, s'. simpl. repeat split; [done|]. rewrite length_app. lia.
Qed.

Lemma search_from_sound (r : regex) (text : str) : ∀ (pos : nat) (m : re_match),
  search_from r pos text = Some m →
  ∃ before t after, text = before ++ t ++ after ∧ sem r t ∅ (m_groups m)
    ∧ m_start m = (pos + length before)%nat
    ∧ m_end m = (m_start m + length t)%nat.
Proof.
  assert (Hhere : ∀ pos s m, match_at r pos s = Some m →
    ∃ before t after, s = before ++ t ++ after ∧ sem r t ∅ (m_groups m)
      ∧ m_start m = (pos + length before)%nat
      ∧ m_end m = (m_start m + length t)%nat).
  { intros pos s m (t & after & -> & Hs & Hstart & Hend)%match_at_sound.
    exists [], t, after. simpl. repeat split; [done|lia|lia]. }
  induction text as [|c text IH]; intros pos m; simpl.
  - destruct (match_at r pos []) eqn:Hm; [|discriminate].
    intros [= ->]. by apply Hhere.
  - destruct (match_at r pos (c :: text)) eqn:Hm.
    + intros [= ->]. by apply Hhere.
    + intros (before & t & after & -> & Hs & Hstart & Hend)%IH.
      exists (c :: before), t, after. simpl. repeat split; [done|lia|lia].
Qed.

Lemma search_block (text : str) (m : re_match) :
  re_search EXTRACTION_REGEXP text = Some m →
  ∃ before after d1 d2 d3 d4 d5 encoding values,
    text = before ++ registration_block d1 d2 d3 d4 d5 encoding values ++ after
    ∧ is_decimal d1 = true ∧ is_decimal d2 = true ∧ is_decimal d3 = true
    ∧ is_decimal d4 = true ∧ is_decimal d5 = true
    ∧ values_ok values
    ∧ m_start m = length before
    ∧ m_end m = (length before
                 + length (registration_block d1 d2 d3 d4 d5 encoding values))%nat
    ∧ m_groups m = groups_of values.
Proof.
  intros (before & t & after & -> & Hs & Hstart & Hend)%search_from_sound.
  apply sem_extraction in Hs
    as (d1 & d2 & d3 & d4 & d5 & enc & values & -> & H1 & H2 & H3 & H4 & H5 & Hv & Hg).
  exists before, after, d1, d2, d3, d4, d5, enc, values.
  repeat split; try done. by rewrite Hend, Hstart.
Qed.

(** X15: the search finds a match exactly in the texts that hold a block
    of the form the pattern describes: the line of the mailer with its
    three version digits, the two header lines after it, the line of the
    transfer encoding or none, an empty line, the line of the column
    names and a data line of sixteen quoted values, digits in the first
    and the third, no double quote in any, the first three and the fifth
    to seventh not empty. *)
Theorem X15_search_succeeds_iff_the_text_holds_a_block (text : str) :
  is_Some (re_search EXTRACTION_REGEXP text)
  ↔ ∃ before after d1 d2 d3 d4 d5 encoding values,
      text = before ++ registration_block d1 d2 d3 d4 d5 encoding values ++ after
      ∧ is_decimal d1 = true ∧ is_decimal d2 = true ∧ is_decimal d3 = true
      ∧ is_decimal d4 = true ∧ is_decimal d5 = true
      ∧ values_ok values.
Proof.
  split.
  - intros [m Hm].
    apply search_block in Hm as (before & after & d1 & d2 & d3 & d4 & d5 & enc
      & values & -> & H1 & H2 & H3 & H4 & H5 & Hv & _).
    by exists before, after, d1, d2, d3, d4, d5, enc, values.
  - intros (before & after & d1 & d2 & d3 & d4 & d5 & enc & values & ->
            & H1 & H2 & H3 & H4 & H5 & Hv).
    by apply search_some_block.
Qed.

(** X16: the match of a successful search is a block of the text: it
    begins where the block begins and ends where it ends, and the sixteen
    values the record is made of are the values of the block's data
    line. *)
Theorem X16_match_is_a_block_of_the_text (text : str) (m : re_match) :
  re_search EXTRACTION_REGEXP text = Some m →
  ∃ before after d1 d2 d3 d4 d5 encoding values,
    text = before ++ registration_block d1 d2 d3 d4 d5 encoding values ++ after
    ∧ values_ok values
    ∧ m_start m = length before
    ∧ m_end m = (length before
                 + length (registration_block d1 d2 d3 d4 d5 encoding values))%nat
    ∧ registration_row (entry_of_match m) = map PyStr values.
Proof.
  intros (before & after & d1 & d2 & d3 & d4 & d5 & enc & values & -> & _ & _
          & _ & _ & _ & Hv & Hstart & Hend & Hg)%search_block.
  exists before, after, d1, d2, d3, d4, d5, enc, values.
  repeat split; try done.
  rewrite entry_of_match_row. apply groups_of_row; [by apply values_ok_length|done].
Qed.

Lemma X16_witness :
  ∃ m, re_search EXTRACTION_REGEXP (msg_text example_message) = Some m
  ∧ ∃ before after d1 d2 d3 d4 d5 encoding values,
    msg_text example_message
    = before ++ registration_block d1 d2 d3 d4 d5 encoding values ++ after
    ∧ values_ok values
    ∧ m_start m = length before
    ∧ m_end m = (length before
                 + length (registration_block d1 d2 d3 d4 d5 encoding values))%nat
    ∧ registration_row (entry_of_match m) = map PyStr values.
Proof.
  eexists. split; [vm_compute; reflexivity|].
  apply X16_match_is_a_block_of_the_text. vm_compute; reflexivity.
Defined.

(** X17: a turn of the loop that ends normally either leaves the list as
    it was, for a message it skips with a notice, or adds one record, and
    then the message has passed the check of its addresses and its text
    holds a block whose data line has the sixteen values of the record:
    no record is made of anything else. *)
Theorem X17_a_record_is_made_of_a_data_line env regs idx w w' regs' :
  process_message env regs idx w = (w', inr regs') →
  (regs' = regs ∧ ∃ msg, fetch_message env idx = inr msg
     ∧ check_if_message_to_skip msg = true
     ∧ stdout w' = stdout w ++ [skip_notice msg])
  ∨ (∃ msg entry before after d1 d2 d3 d4 d5 encoding values,
       regs' = regs ++ [entry]
       ∧ fetch_message env idx = inr msg
       ∧ check_if_message_to_skip msg = false
       ∧ msg_text msg
         = before ++ registration_block d1 d2 d3 d4 d5 encoding values ++ after
       ∧ values_ok values
       ∧ registration_row entry = map PyStr values
       ∧ stdout w' = stdout w).
Proof.
  rewrite process_message_outcome.
  destruct (outcome_of env idx) as [n|entry|e] eqn:Ho; [| |discriminate].
  - intros [= <- <-]. left. split; [done|].
    apply outcome_skip_inv in Ho as (msg & Hf & Hc & ->). by exists msg.
  - intros [= <- <-]. right.
    apply outcome_collect in Ho as (msg & m & Hf & Hc & Hs & ->).
    apply search_block in Hs as (before & after & d1 & d2 & d3 & d4 & d5 & enc
      & values & Ht & _ & _ & _ & _ & _ & Hv & _ & _ & Hg).
    exists msg, (entry_of_match m), before, after, d1, d2, d3, d4, d5, enc, values.
    repeat split; try done.
    rewrite entry_of_match_row. apply groups_of_row; [by apply values_ok_length|done].
Qed.

Lemma X17_witness :
  ∃ w' regs',
    process_message (mailbox_env example_box) [] 1 empty_world = (w', inr regs')
    ∧ ((regs' = [] ∧ ∃ msg, fetch_message (mailbox_env example_box) 1 = inr msg
          ∧ check_if_message_to_skip msg = true
          ∧ stdout w' = stdout empty_world ++ [skip_notice msg])
       ∨ (∃ msg entry before after d1 d2 d3 d4 d5 encoding values,
            regs' = [] ++ [entry]
            ∧ fetch_message (mailbox_env example_box) 1 = inr msg
            ∧ check_if_message_to_skip msg = false
            ∧ msg_text msg
              = before ++ registration_block d1 d2 d3 d4 d5 encoding values ++ after
            ∧ values_ok values
            ∧ registration_row entry = map PyStr values
            ∧ stdout w' = stdout empty_world)).
Proof.
  eexists _, _. split; [vm_compute; reflexivity|].
  apply (X17_a_record_is_made_of_a_data_line (mailbox_env example_box) [] 1
           empty_world).
  vm_compute; reflexivity.
Defined.

(** ** The line of a record in the file *)

Lemma csv_escape_unquoted (v : str) : DQUOTE ∉ v → csv_escape v = v.
Proof.
  unfold csv_escape. induction v as [|c v IH]; [done|].
  intros [Hc Hq]%not_elem_of_cons. simpl.
  rewrite bool_decide_false by done. simpl. f_equal. by apply IH.
Qed.

Lemma csv_special_unquoted (v : str) :
  DQUOTE ∉ v → existsb csv_special v = needs_quotes v.
Proof.
  unfold needs_quotes. induction v as [|c v IH]; [done|].
  intros [Hc Hq]%not_elem_of_cons. simpl. rewrite IH by done. f_equal.
  unfold csv_special. rewrite (bool_decide_false (c = DQUOTE)) by done.
  by rewrite orb_false_r.
Qed.

Lemma csv_quote_unquoted (v : str) : DQUOTE ∉ v → csv_quote v = file_field v.
Proof.
  intros Hq. unfold csv_quote, file_field.
  by rewrite csv_escape_unquoted, csv_special_unquoted.
Qed.

Lemma values_ok_unquoted (values : list str) :
  values_ok values → Forall (fun v => DQUOTE ∉ v) values.
Proof.
  unfold values_ok. intros Hv.
  assert (Hsets : Forall (fun spec : string * cset * nat =>
                            cset_mem spec.1.2 DQUOTE = false)
                    (mandatory EXTRACTION_REGEXP)).
  { apply Forall_forall. intros [[n cs] lo] Hin. simpl.
    by apply (group_sets_exclude_quote n cs lo). }
  induction Hv as [|spec v specs values [Hall _] Hv IH]; [constructor|].
  apply Forall_cons in Hsets as [Hset Hsets]. constructor; [|by apply IH].
  intros Hin. rewrite Forall_forall in Hall. specialize (Hall _ Hin). congruence.
Qed.

Lemma csv_record_values (values : list str) :
  values_ok values → csv_record (map PyStr values) = file_line values.
Proof.
  intros Hv. pose proof (values_ok_unquoted values Hv) as Hq.
  pose proof (values_ok_length values Hv) as Hlen.
  unfold csv_record, file_line. rewrite map_map. cbn [csv_text].
  assert (Hmap : map (fun v => csv_quote v) values = map file_field values).
  { clear Hv Hlen. induction Hq as [|v values Hv Hq IH]; [done|].
    simpl. by rewrite csv_quote_unquoted, IH. }
  rewrite Hmap.
  destruct values as [|x [|y l]]; [done|done|].
  cbn [map]. rewrite (bool_decide_false (join _ _ = [])); [|apply join_not_nil].
  by rewrite andb_false_r.
Qed.

(** X18: the line written for a record made of a data line is that data
    line with the double quotes kept only around the values that hold a
    comma or a line end, and with a carriage return and a line feed after
    it; it is added to the end of the file, and nothing else changes. *)
Theorem X18_line_written_for_a_record (entry : RegistrationData)
    (values : list str) (file : string) (w : world) :
  values_ok values →
  registration_row entry = map PyStr values →
  write_to_csv entry file w
  = (put_files (alter (fun old => old ++ file_line values) file (files w)) w,
     inr tt).
Proof.
  intros Hv Hrow. unfold write_to_csv, writerow, file_write.
  by rewrite Hrow, csv_record_values.
Qed.

Lemma comma_values_ok : values_ok (map cps comma_values).
Proof.
  unfold values_ok. rewrite mandatory_extraction.
  repeat (constructor; [split; [repeat constructor|simpl; lia]|]). constructor.
Qed.

Lemma X18_witness :
  write_to_csv
    (entry_of_match {| m_start := 0; m_end := 0;
                       m_groups := groups_of (map cps comma_values) |})
    EXPORT_FILE (put_files {[EXPORT_FILE := HEADER_LINE]} empty_world)
  = (put_files
       (alter (fun old => old ++ file_line (map cps comma_values)) EXPORT_FILE
          {[EXPORT_FILE := HEADER_LINE]})
       (put_files {[EXPORT_FILE := HEADER_LINE]} empty_world),
     inr tt).
Proof.
  apply (X18_line_written_for_a_record _ (map cps comma_values));
    [apply comma_values_ok|vm_compute; reflexivity].
Defined.

Lemma collected_lines env (ids : list N) :
  ∃ rows,
    map (fun entry => csv_record (registration_row entry)) (entries env ids)
    = map file_line rows
    ∧ Forall2 (fun idx values =>
         ∃ msg before after d1 d2 d3 d4 d5 encoding,
           fetch_message env idx = inr msg
           ∧ check_if_message_to_skip msg = false
           ∧ msg_text msg
             = before ++ registration_block d1 d2 d3 d4 d5 encoding values ++ after
           ∧ values_ok values)
        (List.filter (collected env) ids) rows.
Proof.
  induction (entries_collected env ids) as [|idx entry l1 l2 Ho _ IH].
  - by exists [].
  - destruct IH as (rows & Hmap & Hall).
    apply outcome_collect in Ho as (msg & m & Hf & Hc & Hs & ->).
    apply search_block in Hs as (before & after & d1 & d2 & d3 & d4 & d5 & enc
      & values & Ht & _ & _ & _ & _ & _ & Hv & _ & _ & Hg).
    exists (values :: rows). split.
    + cbn [map]. rewrite Hmap, entry_of_match_row. f_equal.
      rewrite (groups_of_row m values); [by apply csv_record_values| |done].
      by apply values_ok_length.
    + constructor; [|done].
      by exists msg, before, after, d1, d2, d3, d4, d5, enc.
Qed.

(** X19: the export file of a run that ends normally is the header line
    and then, for each message that was not skipped, in the order of the
    search result, one line: the data line of a block in the text of
    that message, with the double quotes kept only around the values
    that hold a comma or a line end. *)
Theorem X19_file_is_the_data_lines_of_the_messages env w w' ids :
  main env w = (w', inr tt) →
  imap_search_all env = inr ids →
  ∃ rows,
    files w' !! EXPORT_FILE = Some (HEADER_LINE ++ concat (map file_line rows))
    ∧ Forall2 (fun idx values =>
         ∃ msg before after d1 d2 d3 d4 d5 encoding,
           fetch_message env idx = inr msg
           ∧ check_if_message_to_skip msg = false
           ∧ msg_text msg
             = before ++ registration_block d1 d2 d3 d4 d5 encoding values ++ after
           ∧ values_ok values)
        (List.filter (collected env) ids) rows.
Proof.
  intros (ids' & Hids' & Hok & Hout & Hfile)%main_file Hids.
  assert (ids' = ids) as -> by congruence.
  destruct (collected_lines env ids) as (rows & Hmap & Hall).
  exists rows. split; [|done].
  rewrite Hfile. unfold export_text, export_rows. cbn [map concat].
  by rewrite header_line_text, map_map, Hmap.
Qed.

Lemma X19_witness :
  ∃ rows,
    files (main (mailbox_env example_box) empty_world).1 !! EXPORT_FILE
    = Some (HEADER_LINE ++ concat (map file_line rows))
    ∧ Forall2 (fun idx values =>
         ∃ msg before after d1 d2 d3 d4 d5 encoding,
           fetch_message (mailbox_env example_box) idx = inr msg
           ∧ check_if_message_to_skip msg = false
           ∧ msg_text msg
             = before ++ registration_block d1 d2 d3 d4 d5 encoding values ++ after
           ∧ values_ok values)
        (List.filter (collected (mailbox_env example_box)) (map fst example_box)) rows.
Proof.
  apply (X19_file_is_the_data_lines_of_the_messages (mailbox_env example_box)
           empty_world); vm_compute; reflexivity.
Defined.

(** ** What ends a turn *)


